(** * The transfer engine of the REST-in-Pawn extension (src/extension.cpp)

    A shallow embedding of the cross-thread engine of [extension.cpp]: the two
    locked queues, the reactor callbacks registered with libcurl and libuv, the
    per-tick hook of the host, and the unload sequence.

    Every function of the file that takes part in the engine is a computation
    in a state-and-failure monad over [World], the process-wide state.  Calls
    into libcurl, libuv and the host are primitives of the model: each one
    records an [Event] in the world's trace and applies the documented effect
    of the call.  libcurl re-enters the engine (it calls the socket and the
    timer callback from inside its own entry points); what it asks for is read
    from a tape held in the world, so that every statement below is
    quantified over all behaviours of the library. *)

From Stdlib Require Import ZArith String Lia.
From stdpp Require Import base option list gmap.

(** ** Handles and library constants *)

(** [IHTTPContext *], [CURL *] and [CurlContext *] are addresses. *)
Abbreviation IHTTPContext := nat (only parsing).
Abbreviation CURL := nat (only parsing).
Abbreviation CurlContextPtr := nat (only parsing).
Abbreviation curl_socket_t := Z (only parsing).

(** Limit the max processing request per tick *)
Definition MAX_PROCESS : Z := 10.

(** Values of [curl/multi.h] and [uv.h]. *)
Definition CURL_POLL_NONE : Z := 0.
Definition CURL_POLL_IN : Z := 1.
Definition CURL_POLL_OUT : Z := 2.
Definition CURL_POLL_INOUT : Z := 3.
Definition CURL_POLL_REMOVE : Z := 4.
Definition CURL_CSELECT_IN : Z := 1.
Definition CURL_CSELECT_OUT : Z := 2.
Definition CURL_SOCKET_TIMEOUT : Z := -1.
Definition UV_READABLE : Z := 1.
Definition UV_WRITABLE : Z := 2.

(** [uv_timer_start] takes [uint64_t] arguments; the callback passes a
    [long]. *)
Definition LONG_MAX : Z := 2 ^ 63 - 1.
Definition to_uint64 (z : Z) : Z := z mod 2 ^ 64.

Inductive CURLMSG := CURLMSG_NONE | CURLMSG_DONE | CURLMSG_LAST.

Record CURLMsg := { msg : CURLMSG; easy_handle : CURL }.

Definition is_done (m : CURLMsg) : bool :=
  match msg m with CURLMSG_DONE => true | _ => false end.

(** A call of libcurl into the engine: [CURLMOPT_SOCKETFUNCTION] or
    [CURLMOPT_TIMERFUNCTION]. *)
Inductive CurlRequest :=
| SocketRequest (easy : CURL) (s : curl_socket_t) (action : Z)
| TimerRequest (timeout_ms : Z).

(** The argument written at the call of [curl_multi_cleanup]. *)
Inductive MultiArg := The_g_Curl | AddressOf_g_Curl.

Inductive QueueId := RequestQueue | CompletedRequestQueue.

Inductive AsyncHandle := PerformRequestsWake | StopLoopWake.

Inductive HandleTypeId :=
| htHTTPRequest | htHTTPResponse | htJSON | htJSONObjectKeys | htWebSocket.

(** What [smutils->AddFrameAction] is given: a function of this file and
    its argument. *)
Inductive FrameAction :=
| Act_log_msg (text : string)
| Act_log_err (text : string)
| Act_execute_cb (cb : nat).

(** ** Observable calls *)

Inductive Event :=
| EvLock (q : QueueId)
| EvUnlock (q : QueueId)
| EvEmpty (q : QueueId) (r : bool)
| EvPush (q : QueueId) (c : IHTTPContext)
| EvPop (q : QueueId) (c : IHTTPContext)
| EvInitCurl (c : IHTTPContext) (ok : bool)
| EvDelete (c : IHTTPContext)
| EvOnCompleted (c : IHTTPContext)
| EvMultiAddHandle (h : CURL)
| EvMultiRemoveHandle (h : CURL)
| EvMultiInfoRead (m : option CURLMsg)
| EvMultiSocketAction (s : curl_socket_t) (flags : Z)
| EvMultiAssign (s : curl_socket_t) (p : option CurlContextPtr)
| EvMultiCleanup (a : MultiArg)
| EvGlobalCleanup
| EvNewCurlContext (p : CurlContextPtr) (s : curl_socket_t)
| EvDestroyCurlContext (p : CurlContextPtr)
| EvPollStart (p : CurlContextPtr) (events : Z)
| EvPollStop (p : CurlContextPtr)
| EvTimerStart (timeout repeat : Z)
| EvTimerStop
| EvAsyncSend (h : AsyncHandle)
| EvStop
| EvThreadJoin
| EvLoopClose
| EvRemoveType (t : HandleTypeId)
| EvRemoveGameFrameHook
| EvOnExtUnload
| EvStoreUnloaded (b : bool)
| EvLogMessage (text : string)
| EvLogError (text : string)
| EvFree (text : string)
| EvAddFrameAction (a : FrameAction)
| EvInvoke (cb : nat)
| EvRelease (cb : nat).

#[global] Instance CURLMSG_eq_dec : EqDecision CURLMSG.
Proof. solve_decision. Defined.
#[global] Instance CURLMsg_eq_dec : EqDecision CURLMsg.
Proof. solve_decision. Defined.
#[global] Instance CurlRequest_eq_dec : EqDecision CurlRequest.
Proof. solve_decision. Defined.
#[global] Instance MultiArg_eq_dec : EqDecision MultiArg.
Proof. solve_decision. Defined.
#[global] Instance QueueId_eq_dec : EqDecision QueueId.
Proof. solve_decision. Defined.
#[global] Instance AsyncHandle_eq_dec : EqDecision AsyncHandle.
Proof. solve_decision. Defined.
#[global] Instance HandleTypeId_eq_dec : EqDecision HandleTypeId.
Proof. solve_decision. Defined.
#[global] Instance FrameAction_eq_dec : EqDecision FrameAction.
Proof. solve_decision. Defined.
#[global] Instance Event_eq_dec : EqDecision Event.
Proof. solve_decision. Defined.

(** ** Process-wide state *)

(** Modelled from the spec: [LockedQueue<T>] of [queue.h], which is not
    part of the sources at hand.  "Ordered sequence of T with
    exclusive-access scoping", "FIFO order preserved", contract [lock()],
    [unlock()], [push(item)], [pop() -> item], [empty() -> bool]. *)
Record LockedQueue := { items : list IHTTPContext; locked : bool }.

(** Modelled from the spec: the Socket Watch Context ([CurlContext], declared
    outside the sources at hand): "the socket handle, a poll registration
    token".  [poll_events] is the interest the poll handle is started
    with, [None] before the first [uv_poll_start]. *)
Record CurlContext := { socket : curl_socket_t; poll_events : option Z }.

(** The multi handle [g_Curl]: the easy handles added to it, the queue of
    messages [curl_multi_info_read] reads, and the per-socket pointer set
    with [curl_multi_assign]. *)
Record CURLM := {
  easy_handles : list CURL;
  messages : list CURLMsg;
  sockdata : gmap Z nat
}.

Record World := {
  g_RequestQueue : LockedQueue;
  g_CompletedRequestQueue : LockedQueue;
  g_Curl : CURLM;
  g_Timeout : option (Z * Z);
  g_AsyncPerformRequests : bool;
  g_AsyncStopLoop : bool;
  unloaded : bool;
  watch_contexts : gmap nat CurlContext;
  frame_actions : list FrameAction;
  callback_tape : list (list CurlRequest);
  completion_tape : list (list CURLMsg);
  trace : list Event
}.

Definition set_g_RequestQueue (x : LockedQueue) (w : World) : World :=
  Build_World x (g_CompletedRequestQueue w) (g_Curl w) (g_Timeout w)
    (g_AsyncPerformRequests w) (g_AsyncStopLoop w) (unloaded w)
    (watch_contexts w) (frame_actions w) (callback_tape w)
    (completion_tape w) (trace w).

Definition set_g_CompletedRequestQueue (x : LockedQueue) (w : World) : World :=
  Build_World (g_RequestQueue w) x (g_Curl w) (g_Timeout w)
    (g_AsyncPerformRequests w) (g_AsyncStopLoop w) (unloaded w)
    (watch_contexts w) (frame_actions w) (callback_tape w)
    (completion_tape w) (trace w).

Definition set_g_Curl (x : CURLM) (w : World) : World :=
  Build_World (g_RequestQueue w) (g_CompletedRequestQueue w) x (g_Timeout w)
    (g_AsyncPerformRequests w) (g_AsyncStopLoop w) (unloaded w)
    (watch_contexts w) (frame_actions w) (callback_tape w)
    (completion_tape w) (trace w).

Definition set_g_Timeout (x : option (Z * Z)) (w : World) : World :=
  Build_World (g_RequestQueue w) (g_CompletedRequestQueue w) (g_Curl w) x
    (g_AsyncPerformRequests w) (g_AsyncStopLoop w) (unloaded w)
    (watch_contexts w) (frame_actions w) (callback_tape w)
    (completion_tape w) (trace w).

Definition set_g_AsyncPerformRequests (x : bool) (w : World) : World :=
  Build_World (g_RequestQueue w) (g_CompletedRequestQueue w) (g_Curl w)
    (g_Timeout w) x (g_AsyncStopLoop w) (unloaded w)
    (watch_contexts w) (frame_actions w) (callback_tape w)
    (completion_tape w) (trace w).

Definition set_g_AsyncStopLoop (x : bool) (w : World) : World :=
  Build_World (g_RequestQueue w) (g_CompletedRequestQueue w) (g_Curl w)
    (g_Timeout w) (g_AsyncPerformRequests w) x (unloaded w)
    (watch_contexts w) (frame_actions w) (callback_tape w)
    (completion_tape w) (trace w).

Definition set_unloaded (x : bool) (w : World) : World :=
  Build_World (g_RequestQueue w) (g_CompletedRequestQueue w) (g_Curl w)
    (g_Timeout w) (g_AsyncPerformRequests w) (g_AsyncStopLoop w) x
    (watch_contexts w) (frame_actions w) (callback_tape w)
    (completion_tape w) (trace w).

Definition set_watch_contexts (x : gmap nat CurlContext) (w : World) : World :=
  Build_World (g_RequestQueue w) (g_CompletedRequestQueue w) (g_Curl w)
    (g_Timeout w) (g_AsyncPerformRequests w) (g_AsyncStopLoop w) (unloaded w)
    x (frame_actions w) (callback_tape w) (completion_tape w) (trace w).

Definition set_frame_actions (x : list FrameAction) (w : World) : World :=
  Build_World (g_RequestQueue w) (g_CompletedRequestQueue w) (g_Curl w)
    (g_Timeout w) (g_AsyncPerformRequests w) (g_AsyncStopLoop w) (unloaded w)
    (watch_contexts w) x (callback_tape w) (completion_tape w) (trace w).

Definition set_callback_tape (x : list (list CurlRequest)) (w : World) : World :=
  Build_World (g_RequestQueue w) (g_CompletedRequestQueue w) (g_Curl w)
    (g_Timeout w) (g_AsyncPerformRequests w) (g_AsyncStopLoop w) (unloaded w)
    (watch_contexts w) (frame_actions w) x (completion_tape w) (trace w).

Definition set_completion_tape (x : list (list CURLMsg)) (w : World) : World :=
  Build_World (g_RequestQueue w) (g_CompletedRequestQueue w) (g_Curl w)
    (g_Timeout w) (g_AsyncPerformRequests w) (g_AsyncStopLoop w) (unloaded w)
    (watch_contexts w) (frame_actions w) (callback_tape w) x (trace w).

Definition set_trace (x : list Event) (w : World) : World :=
  Build_World (g_RequestQueue w) (g_CompletedRequestQueue w) (g_Curl w)
    (g_Timeout w) (g_AsyncPerformRequests w) (g_AsyncStopLoop w) (unloaded w)
    (watch_contexts w) (frame_actions w) (callback_tape w)
    (completion_tape w) x.

(** The state the extension is in once [SDK_OnLoad] has returned and before
    anything was submitted. *)
Definition loaded : World :=
  {| g_RequestQueue := {| items := []; locked := false |};
     g_CompletedRequestQueue := {| items := []; locked := false |};
     g_Curl := {| easy_handles := []; messages := []; sockdata := ∅ |};
     g_Timeout := None;
     g_AsyncPerformRequests := false;
     g_AsyncStopLoop := false;
     unloaded := false;
     watch_contexts := ∅;
     frame_actions := [];
     callback_tape := [];
     completion_tape := [];
     trace := [] |}.

(** ** The monad of engine code

    [None] is a run that leaves defined behaviour ([Pop] of an empty
    [std::queue], a dangling [CurlContext]) or a loop that was given too
    little fuel. *)
Definition M (A : Type) : Type := World → option (A * World).

#[global] Instance M_ret : MRet M := λ A a w, Some (a, w).

#[global] Instance M_bind : MBind M := λ A B f m w,
  match m w with
  | Some (a, w') => f a w'
  | None => None
  end.

Definition fail {A} : M A := λ _, None.
Definition get {A} (f : World → A) : M A := λ w, Some (f w, w).
Definition modify (f : World → World) : M unit := λ w, Some (tt, f w).
Definition emit (e : Event) : M unit :=
  modify (λ w, set_trace (trace w ++ [e]) w).

(** The world a computation ends in, and the events it added. *)
Definition exec {A} (m : M A) (w : World) : option World :=
  match m w with Some (_, w') => Some w' | None => None end.

Definition events_since (w w' : World) : list Event :=
  drop (length (trace w)) (trace w').

(** ** LockedQueue *)

Definition queue (q : QueueId) (w : World) : LockedQueue :=
  match q with
  | RequestQueue => g_RequestQueue w
  | CompletedRequestQueue => g_CompletedRequestQueue w
  end.

Definition set_queue (q : QueueId) (x : LockedQueue) : World → World :=
  match q with
  | RequestQueue => set_g_RequestQueue x
  | CompletedRequestQueue => set_g_CompletedRequestQueue x
  end.

Definition Lock (q : QueueId) : M unit :=
  emit (EvLock q);;
  modify (λ w, set_queue q {| items := items (queue q w); locked := true |} w).

Definition Unlock (q : QueueId) : M unit :=
  emit (EvUnlock q);;
  modify (λ w, set_queue q {| items := items (queue q w); locked := false |} w).

Definition Empty (q : QueueId) : M bool :=
  r ← get (λ w, bool_decide (items (queue q w) = []));
  emit (EvEmpty q r);;
  mret r.

Definition Push (q : QueueId) (c : IHTTPContext) : M unit :=
  emit (EvPush q c);;
  modify (λ w, set_queue q {| items := items (queue q w) ++ [c];
                              locked := locked (queue q w) |} w).

Definition Pop (q : QueueId) : M IHTTPContext :=
  l ← get (λ w, items (queue q w));
  match l with
  | [] => fail
  | c :: rest =>
      emit (EvPop q c);;
      modify (λ w, set_queue q {| items := rest;
                                  locked := locked (queue q w) |} w);;
      mret c
  end.

(** ** libuv *)

Definition uv_timer_stop : M unit :=
  emit EvTimerStop;;
  modify (set_g_Timeout None).

Definition uv_timer_start (timeout repeat : Z) : M unit :=
  emit (EvTimerStart timeout repeat);;
  modify (set_g_Timeout (Some (timeout, repeat))).

Definition uv_async_send (h : AsyncHandle) : M unit :=
  emit (EvAsyncSend h);;
  modify (match h with
          | PerformRequestsWake => set_g_AsyncPerformRequests true
          | StopLoopWake => set_g_AsyncStopLoop true
          end).

(** An address that holds no context is outside the model: the call leaves
    the contexts as they are. *)
Definition uv_poll_start (p : CurlContextPtr) (events : Z) : M unit :=
  emit (EvPollStart p events);;
  modify (λ w, set_watch_contexts
            (alter (λ c, {| socket := socket c; poll_events := Some events |})
               p (watch_contexts w)) w).

Definition uv_stop : M unit := emit EvStop.

(** ** Socket Watch Contexts *)

(** [new CurlContext(socket)]: a context at an address not in use. *)
Definition new_CurlContext (s : curl_socket_t) : M CurlContextPtr :=
  p ← get (λ w, fresh (dom (watch_contexts w)));
  emit (EvNewCurlContext p s);;
  modify (λ w, set_watch_contexts
            (<[p := {| socket := s; poll_events := None |}]> (watch_contexts w)) w);;
  mret p.

(** Modelled from the spec: [CurlContext::Destroy], defined outside the
    sources at hand.  "On a remove request, stop polling and destroy the
    Socket Watch Context." *)
Definition Destroy (p : CurlContextPtr) : M unit :=
  emit (EvPollStop p);;
  emit (EvDestroyCurlContext p);;
  modify (λ w, set_watch_contexts (delete p (watch_contexts w)) w).

(** ** libcurl calls that do not re-enter the engine *)

Definition curl_multi_assign (s : curl_socket_t) (p : option CurlContextPtr) : M unit :=
  emit (EvMultiAssign s p);;
  modify (λ w, set_g_Curl
            {| easy_handles := easy_handles (g_Curl w);
               messages := messages (g_Curl w);
               sockdata := match p with
                           | Some p => <[s := p]> (sockdata (g_Curl w))
                           | None => delete s (sockdata (g_Curl w))
                           end |} w).

Definition curl_multi_info_read : M (option CURLMsg) :=
  l ← get (λ w, messages (g_Curl w));
  match l with
  | [] => emit (EvMultiInfoRead None);; mret None
  | m :: rest =>
      emit (EvMultiInfoRead (Some m));;
      modify (λ w, set_g_Curl
                {| easy_handles := easy_handles (g_Curl w);
                   messages := rest;
                   sockdata := sockdata (g_Curl w) |} w);;
      mret (Some m)
  end.

(** ** The callbacks given to libcurl (extension.cpp, lines 116-164) *)

Definition CurlSocketCallback (easy : CURL) (s : curl_socket_t) (action : Z)
    (socketdata : option CurlContextPtr) : M Z :=
  (if bool_decide (action = CURL_POLL_IN) || bool_decide (action = CURL_POLL_OUT)
      || bool_decide (action = CURL_POLL_INOUT)
   then
     context ← match socketdata with
               | Some p => mret p
               | None => new_CurlContext s
               end;
     curl_multi_assign s (Some context);;
     let events := 0%Z in
     let events := if bool_decide (action ≠ CURL_POLL_IN)
                   then Z.lor events UV_WRITABLE else events in
     let events := if bool_decide (action ≠ CURL_POLL_OUT)
                   then Z.lor events UV_READABLE else events in
     uv_poll_start context events
   else if bool_decide (action = CURL_POLL_REMOVE)
   then
     match socketdata with
     | Some context =>
         Destroy context;;
         curl_multi_assign s None
     | None => mret tt
     end
   else mret tt);;
  mret 0%Z.

Definition CurlTimeoutCallback (timeout_ms : Z) : M Z :=
  if bool_decide (timeout_ms = (-1)%Z)
  then uv_timer_stop;; mret 0%Z
  else uv_timer_start (to_uint64 timeout_ms) 0;; mret 0%Z.

(** ** libcurl calls that re-enter the engine

    libcurl calls the two callbacks from inside [curl_multi_add_handle],
    [curl_multi_remove_handle] and [curl_multi_socket_action].  The calls it
    makes during one entry are the next batch of [callback_tape]; the socket
    pointer it hands to the socket callback is the one last assigned. *)

Definition multi_callback (r : CurlRequest) : M unit :=
  match r with
  | SocketRequest easy s action =>
      socketdata ← get (λ w, sockdata (g_Curl w) !! s);
      CurlSocketCallback easy s action socketdata;;
      mret tt
  | TimerRequest timeout_ms =>
      CurlTimeoutCallback timeout_ms;;
      mret tt
  end.

Fixpoint multi_callbacks (rs : list CurlRequest) : M unit :=
  match rs with
  | [] => mret tt
  | r :: rs => multi_callback r;; multi_callbacks rs
  end.

Definition multi_reenter : M unit :=
  tape ← get callback_tape;
  match tape with
  | [] => mret tt
  | rs :: rest => modify (set_callback_tape rest);; multi_callbacks rs
  end.

Definition curl_multi_add_handle (h : CURL) : M unit :=
  emit (EvMultiAddHandle h);;
  modify (λ w, set_g_Curl
            {| easy_handles := easy_handles (g_Curl w) ++ [h];
               messages := messages (g_Curl w);
               sockdata := sockdata (g_Curl w) |} w);;
  multi_reenter.

Definition curl_multi_remove_handle (h : CURL) : M unit :=
  emit (EvMultiRemoveHandle h);;
  modify (λ w, set_g_Curl
            {| easy_handles := filter (λ h', h' ≠ h) (easy_handles (g_Curl w));
               messages := messages (g_Curl w);
               sockdata := sockdata (g_Curl w) |} w);;
  multi_reenter.

(** The transfers that finish during one call are the next batch of
    [completion_tape]. *)
Definition curl_multi_socket_action (s : curl_socket_t) (flags : Z) : M unit :=
  emit (EvMultiSocketAction s flags);;
  multi_reenter;;
  tape ← get completion_tape;
  match tape with
  | [] => mret tt
  | ms :: rest =>
      modify (set_completion_tape rest);;
      modify (λ w, set_g_Curl
                {| easy_handles := easy_handles (g_Curl w);
                   messages := messages (g_Curl w) ++ ms;
                   sockdata := sockdata (g_Curl w) |} w)
  end.

Definition curl_multi_cleanup (a : MultiArg) : M unit := emit (EvMultiCleanup a).
Definition curl_global_cleanup : M unit := emit EvGlobalCleanup.

(** ** Host environment *)

Definition AddFrameAction (a : FrameAction) : M unit :=
  emit (EvAddFrameAction a);;
  modify (λ w, set_frame_actions (frame_actions w ++ [a]) w).

Definition delete_context (c : IHTTPContext) : M unit := emit (EvDelete c).
Definition OnCompleted (c : IHTTPContext) : M unit := emit (EvOnCompleted c).

(** ** The engine (extension.cpp) *)

Section Engine.

(** The Transfer Context interface [IHTTPContext] is implemented outside the
    sources at hand.  The engine uses the result of the virtual
    [InitCurl()], the member [curl], and the context stored in an easy handle
    under [CURLINFO_PRIVATE]. *)
Variable InitCurl : IHTTPContext → bool.
Variable curl : IHTTPContext → CURL.
Variable CURLINFO_PRIVATE : CURL → IHTTPContext.

Definition call_InitCurl (c : IHTTPContext) : M bool :=
  emit (EvInitCurl c (InitCurl c));;
  mret (InitCurl c).

Definition curl_easy_getinfo_PRIVATE (h : CURL) : M IHTTPContext :=
  mret (CURLINFO_PRIVATE h).

(** Lines 64-86.  The [while] loop runs once per message of the multi
    handle; [fuel] bounds the number of iterations. *)
Fixpoint CheckCompletedRequests_loop (fuel : nat) : M unit :=
  match fuel with
  | O => fail
  | S fuel =>
      message ← curl_multi_info_read;
      match message with
      | None => mret tt
      | Some message =>
          if negb (is_done message)
          then CheckCompletedRequests_loop fuel
          else
            let easy := easy_handle message in
            curl_multi_remove_handle easy;;
            context ← curl_easy_getinfo_PRIVATE easy;
            Lock CompletedRequestQueue;;
            Push CompletedRequestQueue context;;
            Unlock CompletedRequestQueue;;
            CheckCompletedRequests_loop fuel
      end
  end.

Definition CheckCompletedRequests : M unit :=
  fuel ← get (λ w, S (length (messages (g_Curl w))));
  CheckCompletedRequests_loop fuel.

(** Lines 88-94. *)
Definition PerformRequests : M unit :=
  curl_multi_socket_action CURL_SOCKET_TIMEOUT 0;;
  CheckCompletedRequests.

(** Lines 96-114.  [handle->data] is the context the poll handle lives in. *)
Definition CurlSocketActivity (handle : CurlContextPtr) (status events : Z) : M unit :=
  context ← get (λ w, watch_contexts w !! handle);
  match context with
  | None => fail
  | Some context =>
      let flags := 0%Z in
      let flags := if bool_decide (Z.land events UV_READABLE ≠ 0%Z)
                   then Z.lor flags CURL_CSELECT_IN else flags in
      let flags := if bool_decide (Z.land events UV_WRITABLE ≠ 0%Z)
                   then Z.lor flags CURL_CSELECT_OUT else flags in
      curl_multi_socket_action (socket context) flags;;
      CheckCompletedRequests
  end.

(** Lines 171-193.  Every iteration pops one context; [fuel] bounds the
    number of iterations. *)
Fixpoint AsyncPerformRequests_loop (fuel : nat) (count : Z) : M unit :=
  match fuel with
  | O => fail
  | S fuel =>
      e ← Empty RequestQueue;
      if negb e && (count <? MAX_PROCESS)%Z
      then
        context ← Pop RequestQueue;
        ok ← call_InitCurl context;
        if negb ok
        then
          delete_context context;;
          AsyncPerformRequests_loop fuel count
        else
          curl_multi_add_handle (curl context);;
          AsyncPerformRequests_loop fuel (count + 1)%Z
      else mret tt
  end.

Definition AsyncPerformRequests : M unit :=
  Lock RequestQueue;;
  fuel ← get (λ w, S (length (items (g_RequestQueue w))));
  AsyncPerformRequests_loop fuel 0;;
  Unlock RequestQueue.

(** Lines 195-198. *)
Definition AsyncStopLoop : M unit := uv_stop.

(** Lines 200-217. *)
Definition FrameHook : M unit :=
  e ← Empty RequestQueue;
  (if negb e then uv_async_send PerformRequestsWake else mret tt);;
  e ← Empty CompletedRequestQueue;
  if negb e
  then
    Lock CompletedRequestQueue;;
    context ← Pop CompletedRequestQueue;
    OnCompleted context;;
    delete_context context;;
    Unlock CompletedRequestQueue
  else mret tt.

(** [uv_thread_join] returns when the reactor thread has left [uv_run]: the
    reactor handles the stop wake that is pending. *)
Definition uv_thread_join : M unit :=
  pending ← get g_AsyncStopLoop;
  (if (pending : bool)
   then modify (set_g_AsyncStopLoop false);; AsyncStopLoop
   else mret tt);;
  emit EvThreadJoin.

(** Lines 286-306. *)
Definition SDK_OnUnload : M unit :=
  uv_async_send StopLoopWake;;
  uv_thread_join;;
  emit EvLoopClose;;
  curl_multi_cleanup AddressOf_g_Curl;;
  curl_global_cleanup;;
  emit (EvRemoveType htHTTPRequest);;
  emit (EvRemoveType htHTTPResponse);;
  emit (EvRemoveType htJSON);;
  emit (EvRemoveType htJSONObjectKeys);;
  emit (EvRemoveType htWebSocket);;
  emit EvRemoveGameFrameHook;;
  emit EvOnExtUnload;;
  emit (EvStoreUnloaded true);;
  modify (set_unloaded true).

(** Lines 308-313. *)
Definition AddRequestToQueue (context : IHTTPContext) : M unit :=
  Lock RequestQueue;;
  Push RequestQueue context;;
  Unlock RequestQueue.

(** Lines 315-331. *)
Definition log_msg (text : string) : M unit :=
  u ← get unloaded;
  (if negb u then emit (EvLogMessage text) else mret tt);;
  emit (EvFree text).

Definition log_err (text : string) : M unit :=
  u ← get unloaded;
  (if negb u then emit (EvLogError text) else mret tt);;
  emit (EvFree text).

(** Lines 333-353.  [formatted] is the text [vsnprintf] produces; the buffer
    holds 3072 bytes, the last of which is the terminator. *)
Definition buffer_3072 (formatted : string) : string :=
  String.substring 0 3071 formatted.

Definition LogMessage (formatted : string) : M unit :=
  AddFrameAction (Act_log_msg (buffer_3072 formatted)).

Definition LogError (formatted : string) : M unit :=
  AddFrameAction (Act_log_err (buffer_3072 formatted)).

(** Lines 355-365. *)
Definition execute_cb (cb : nat) : M unit :=
  emit (EvInvoke cb);;
  emit (EvRelease cb).

Definition Defer (callback : nat) : M unit :=
  AddFrameAction (Act_execute_cb callback).

(** ** The two threads

    The host thread submits, ticks, runs the frame actions it was given and
    unloads; the reactor thread runs the handler of whichever libuv handle
    is due.  A handler runs to its end before the next one starts. *)

Inductive Action :=
| HostSubmit (context : IHTTPContext)
| HostTick
| HostFrameAction
| HostUnload
| RelayLogMessage (formatted : string)
| RelayLogError (formatted : string)
| RelayDefer (callback : nat)
| ReactorWake
| ReactorTimer
| ReactorPoll (handle : CurlContextPtr) (events : Z).

#[global] Instance Action_eq_dec : EqDecision Action.
Proof. solve_decision. Defined.

Definition run_frame_action : M unit :=
  l ← get frame_actions;
  match l with
  | [] => mret tt
  | a :: rest =>
      modify (set_frame_actions rest);;
      match a with
      | Act_log_msg text => log_msg text
      | Act_log_err text => log_err text
      | Act_execute_cb cb => execute_cb cb
      end
  end.

Definition step (a : Action) : M unit :=
  match a with
  | HostSubmit context => AddRequestToQueue context
  | HostTick => FrameHook
  | HostFrameAction => run_frame_action
  | HostUnload => SDK_OnUnload
  | RelayLogMessage formatted => LogMessage formatted
  | RelayLogError formatted => LogError formatted
  | RelayDefer callback => Defer callback
  | ReactorWake =>
      pending ← get g_AsyncPerformRequests;
      if (pending : bool)
      then modify (set_g_AsyncPerformRequests false);; AsyncPerformRequests
      else mret tt
  | ReactorTimer =>
      t ← get g_Timeout;
      match t with
      | Some (_, repeat) =>
          modify (set_g_Timeout (if bool_decide (repeat = 0%Z) then None
                                 else Some (repeat, repeat)));;
          PerformRequests
      | None => mret tt
      end
  | ReactorPoll handle events =>
      live ← get (λ w, bool_decide (is_Some (watch_contexts w !! handle)));
      if (live : bool) then CurlSocketActivity handle 0 events else mret tt
  end.

Fixpoint run (l : list Action) : M unit :=
  match l with
  | [] => mret tt
  | a :: l => step a;; run l
  end.


(** ** Reading a trace *)

(** The events of the two callbacks libcurl calls; they occur inside the
    libcurl entry points. *)
Definition callback_event (e : Event) : bool :=
  match e with
  | EvMultiAssign _ _ | EvNewCurlContext _ _ | EvDestroyCurlContext _
  | EvPollStart _ _ | EvPollStop _ | EvTimerStart _ _ | EvTimerStop => true
  | _ => false
  end.

(** What a function does itself, without the callbacks libcurl runs
    meanwhile. *)
Definition own_events (t : list Event) : list Event :=
  filter (λ e, negb (callback_event e)) t.

Definition admitted_in (t : list Event) : list CURL :=
  omap (λ e, match e with EvMultiAddHandle h => Some h | _ => None end) t.

Definition destroyed_in (t : list Event) : list IHTTPContext :=
  omap (λ e, match e with EvDelete c => Some c | _ => None end) t.

Definition completed_in (t : list Event) : list IHTTPContext :=
  omap (λ e, match e with EvOnCompleted c => Some c | _ => None end) t.

Definition pushed_in (q : QueueId) (t : list Event) : list IHTTPContext :=
  omap (λ e, match e with
             | EvPush q' c => if bool_decide (q' = q) then Some c else None
             | _ => None
             end) t.

Definition wakes_in (t : list Event) : nat :=
  length (filter (λ e, e = EvAsyncSend PerformRequestsWake) t).

Definition watch_event (e : Event) : bool :=
  match e with
  | EvNewCurlContext _ _ | EvDestroyCurlContext _ => true
  | _ => false
  end.

Definition socket_request (r : CurlRequest) : bool :=
  match r with SocketRequest _ _ _ => true | TimerRequest _ => false end.

(** *** Lock scoping

    The locks the running thread holds are replayed from its [EvLock] and
    [EvUnlock] events. *)

Definition no_lock : QueueId → bool := λ _, false.

Definition with_lock (held : QueueId → bool) (q : QueueId) (b : bool) : QueueId → bool :=
  λ q', if bool_decide (q' = q) then b else held q'.

Definition after_event (held : QueueId → bool) (e : Event) : QueueId → bool :=
  match e with
  | EvLock q => with_lock held q true
  | EvUnlock q => with_lock held q false
  | _ => held
  end.

(** Any use of a queue: emptiness check, push, pop. *)
Definition queue_access (e : Event) : option QueueId :=
  match e with
  | EvEmpty q _ | EvPush q _ | EvPop q _ => Some q
  | _ => None
  end.

(** The uses that change a queue: push, pop. *)
Definition queue_mutation (e : Event) : option QueueId :=
  match e with
  | EvPush q _ | EvPop q _ => Some q
  | _ => None
  end.

(** [under_lock uses held t]: every event of [t] that [uses] a queue occurs
    while that queue's lock is held. *)
Fixpoint under_lock (uses : Event → option QueueId) (held : QueueId → bool)
    (t : list Event) : bool :=
  match t with
  | [] => true
  | e :: t =>
      match uses e with Some q => held q | None => true end
      && under_lock uses (after_event held e) t
  end.

(** [pops_rechecked checked t]: every pop of [t] comes after an emptiness
    check of the same queue that found it non-empty and was made since the
    lock was last taken, with no pop in between. *)
Fixpoint pops_rechecked (checked : QueueId → bool) (t : list Event) : bool :=
  match t with
  | [] => true
  | e :: t =>
      match e with
      | EvLock q | EvUnlock q => pops_rechecked (with_lock checked q false) t
      | EvEmpty q r => pops_rechecked (with_lock checked q (negb r)) t
      | EvPop q _ => checked q && pops_rechecked (with_lock checked q false) t
      | _ => pops_rechecked checked t
      end
  end.

(** ** Specifications of computations *)

(** [m] always returns, and relates the worlds before and after by [R]. *)
Definition returns {A} (R : World → World → Prop) (m : M A) : Prop :=
  ∀ w, ∃ a w', m w = Some (a, w') ∧ R w w'.

(** Whenever [m] returns, it relates the worlds before and after by [R]. *)
Definition respects {A} (R : World → World → Prop) (m : M A) : Prop :=
  ∀ w a w', m w = Some (a, w') → R w w'.

(** What the callbacks of libcurl leave alone: the queues, the set of easy
    handles, the messages, the wake flags, the torn-down flag, the frame
    actions; and they add callback events only. *)
Record callback_frame (w w' : World) : Prop := {
  cf_request : g_RequestQueue w' = g_RequestQueue w;
  cf_completed : g_CompletedRequestQueue w' = g_CompletedRequestQueue w;
  cf_handles : easy_handles (g_Curl w') = easy_handles (g_Curl w);
  cf_messages : messages (g_Curl w') = messages (g_Curl w);
  cf_wake : g_AsyncPerformRequests w' = g_AsyncPerformRequests w;
  cf_stop : g_AsyncStopLoop w' = g_AsyncStopLoop w;
  cf_unloaded : unloaded w' = unloaded w;
  cf_actions : frame_actions w' = frame_actions w;
  cf_completions : completion_tape w' = completion_tape w;
  cf_trace : ∃ evs, trace w' = trace w ++ evs ∧ own_events evs = []
}.

(** As long as libcurl asks for no socket, no Socket Watch Context comes or
    goes. *)
Definition no_socket_request (w : World) : Prop :=
  Forall (Forall (λ r, socket_request r = false)) (callback_tape w).

(** [preserves I ok]: from a world where [I] holds, [I] still holds
    afterwards and only events that are [ok] were added. *)
Definition preserves (I : World → Prop) (ok : Event → Prop) (w w' : World) : Prop :=
  I w →
  I w' ∧ ∃ evs, trace w' = trace w ++ evs ∧ Forall ok evs.

(** The Socket Watch Contexts are [W] and libcurl will ask for no socket. *)
Definition watching (W : gmap nat CurlContext) (w : World) : Prop :=
  no_socket_request w ∧ watch_contexts w = W.

Definition no_watch_event (e : Event) : Prop := watch_event e = false.

(** No wake of the admission drain is outstanding. *)
Definition no_wake_pending (w : World) : Prop := g_AsyncPerformRequests w = false.

Definition no_admission_event (e : Event) : Prop :=
  match e with
  | EvMultiAddHandle _ | EvAsyncSend PerformRequestsWake => False
  | _ => True
  end.

(** What a submission leaves alone: everything but the pending queue and
    the trace. *)
Definition same_but_pending (w w' : World) : Prop :=
  set_trace (trace w) (set_g_RequestQueue (g_RequestQueue w) w') = w.

(** ** Sample behaviours *)

(** Contexts at even addresses initialise, the others do not; the easy
    handle of a context and the context of an easy handle are at the same
    address. *)
Definition even_InitCurl (c : IHTTPContext) : bool := Nat.even c.
Definition never_InitCurl (c : IHTTPContext) : bool := false.
Definition same_address (p : nat) : nat := p.

Definition with_pending (l : list IHTTPContext) (w : World) : World :=
  set_g_RequestQueue {| items := l; locked := false |} w.

Definition with_completed (l : list IHTTPContext) (w : World) : World :=
  set_g_CompletedRequestQueue {| items := l; locked := false |} w.

Definition with_messages (l : list CURLMsg) (w : World) : World :=
  set_g_Curl {| easy_handles := easy_handles (g_Curl w);
                messages := l;
                sockdata := sockdata (g_Curl w) |} w.

(** ** What the loops record *)

(** The contexts of [l] whose [InitCurl()] succeeds. *)
Definition initialised (l : list IHTTPContext) : list IHTTPContext :=
  filter (λ c, InitCurl c = true) l.

(** One pass of the admission loop, for the context it pops. *)
Definition admission_events (c : IHTTPContext) : list Event :=
  [EvEmpty RequestQueue false; EvPop RequestQueue c; EvInitCurl c (InitCurl c);
   if InitCurl c then EvMultiAddHandle (curl c) else EvDelete c].

(** One pass of the completion loop, for the message it reads. *)
Definition completion_events (m : CURLMsg) : list Event :=
  if is_done m
  then [EvMultiInfoRead (Some m); EvMultiRemoveHandle (easy_handle m);
        EvLock CompletedRequestQueue;
        EvPush CompletedRequestQueue (CURLINFO_PRIVATE (easy_handle m));
        EvUnlock CompletedRequestQueue]
  else [EvMultiInfoRead (Some m)].

(** The finished easy handles among the messages. *)
Definition finished_handles (l : list CURLMsg) : list CURL :=
  map easy_handle (filter (λ m, is_done m = true) l).

(** What the reactor's two loops leave alone. *)
Record reactor_frame (w w' : World) : Prop := {
  rf_wake : g_AsyncPerformRequests w' = g_AsyncPerformRequests w;
  rf_stop : g_AsyncStopLoop w' = g_AsyncStopLoop w;
  rf_unloaded : unloaded w' = unloaded w;
  rf_actions : frame_actions w' = frame_actions w;
  rf_completions : completion_tape w' = completion_tape w
}.

(** What a run of the admission loop that starts with [count] admitted
    contexts and pops [popped] does to the world. *)
Record admission (count : Z) (w w' : World) (popped : list IHTTPContext) : Prop := {
  adm_queue : items (g_RequestQueue w) = popped ++ items (g_RequestQueue w');
  adm_locked : locked (g_RequestQueue w') = locked (g_RequestQueue w);
  adm_below_cap :
    ∀ before c after, popped = before ++ c :: after →
      (count + Z.of_nat (length (initialised before)) < MAX_PROCESS)%Z;
  adm_stop :
    items (g_RequestQueue w') = [] ∨
    (count + Z.of_nat (length (initialised popped)) = MAX_PROCESS)%Z;
  adm_handles :
    easy_handles (g_Curl w') =
      easy_handles (g_Curl w) ++ map curl (initialised popped);
  adm_completed : g_CompletedRequestQueue w' = g_CompletedRequestQueue w;
  adm_messages : messages (g_Curl w') = messages (g_Curl w);
  adm_frame : reactor_frame w w';
  adm_trace :
    ∃ evs, trace w' = trace w ++ evs ∧
      own_events evs =
        flat_map admission_events popped ++
        [EvEmpty RequestQueue (bool_decide (items (g_RequestQueue w') = []))]
}.

(** What one call of [AsyncPerformRequests] that pops [popped] does to the
    world. *)
Record admission_drain (w w' : World) (popped : list IHTTPContext) : Prop := {
  drain_queue : items (g_RequestQueue w) = popped ++ items (g_RequestQueue w');
  drain_unlocked : locked (g_RequestQueue w') = false;
  drain_below_cap :
    ∀ before c after, popped = before ++ c :: after →
      (Z.of_nat (length (initialised before)) < MAX_PROCESS)%Z;
  drain_stop :
    items (g_RequestQueue w') = [] ∨
    Z.of_nat (length (initialised popped)) = MAX_PROCESS;
  drain_handles :
    easy_handles (g_Curl w') =
      easy_handles (g_Curl w) ++ map curl (initialised popped);
  drain_completed : g_CompletedRequestQueue w' = g_CompletedRequestQueue w;
  drain_messages : messages (g_Curl w') = messages (g_Curl w);
  drain_frame : reactor_frame w w';
  drain_trace :
    ∃ evs, trace w' = trace w ++ evs ∧
      own_events evs =
        EvLock RequestQueue :: flat_map admission_events popped ++
        [EvEmpty RequestQueue (bool_decide (items (g_RequestQueue w') = []));
         EvUnlock RequestQueue]
}.

(** What one call of [CheckCompletedRequests] does to the world. *)
Record completion_drain (w w' : World) : Prop := {
  cd_messages : messages (g_Curl w') = [];
  cd_handles :
    easy_handles (g_Curl w') =
      filter (λ h, h ∉ finished_handles (messages (g_Curl w)))
        (easy_handles (g_Curl w));
  cd_completed :
    items (g_CompletedRequestQueue w') =
      items (g_CompletedRequestQueue w) ++
      map CURLINFO_PRIVATE (finished_handles (messages (g_Curl w)));
  cd_pending : g_RequestQueue w' = g_RequestQueue w;
  cd_frame : reactor_frame w w';
  cd_trace :
    ∃ evs, trace w' = trace w ++ evs ∧
      own_events evs =
        flat_map completion_events (messages (g_Curl w)) ++ [EvMultiInfoRead None]
}.

(** What one call of [curl_multi_socket_action] does to the world: callbacks,
    and new messages at the end of the message queue. *)
Record socket_action_frame (s : curl_socket_t) (flags : Z) (w w' : World) : Prop := {
  sa_request : g_RequestQueue w' = g_RequestQueue w;
  sa_completed : g_CompletedRequestQueue w' = g_CompletedRequestQueue w;
  sa_handles : easy_handles (g_Curl w') = easy_handles (g_Curl w);
  sa_messages : ∃ ms, messages (g_Curl w') = messages (g_Curl w) ++ ms;
  sa_wake : g_AsyncPerformRequests w' = g_AsyncPerformRequests w;
  sa_stop : g_AsyncStopLoop w' = g_AsyncStopLoop w;
  sa_unloaded : unloaded w' = unloaded w;
  sa_actions : frame_actions w' = frame_actions w;
  sa_trace :
    ∃ evs, trace w' = trace w ++ EvMultiSocketAction s flags :: evs ∧
           own_events evs = []
}.

(** The interest a register-or-update request asks for: readable unless
    the request is write-only, writable unless it is read-only. *)
Definition requested_interest (action : Z) : Z :=
  if bool_decide (action = CURL_POLL_IN) then UV_READABLE
  else if bool_decide (action = CURL_POLL_OUT) then UV_WRITABLE
  else Z.lor UV_READABLE UV_WRITABLE.

Definition register_or_update (action : Z) : bool :=
  bool_decide (action = CURL_POLL_IN) || bool_decide (action = CURL_POLL_OUT)
  || bool_decide (action = CURL_POLL_INOUT).

(** What [CurlSocketCallback] is to do for a request, by the kind of the
    request and by whether the socket has a context. *)
Definition socket_request_served (s : curl_socket_t) (action : Z)
    (socketdata : option CurlContextPtr) (w w' : World) : Prop :=
  if register_or_update action then
    match socketdata with
    | None =>
        let p := fresh (dom (watch_contexts w)) in
        watch_contexts w !! p = None ∧
        watch_contexts w' =
          <[p := {| socket := s;
                    poll_events := Some (requested_interest action) |}]>
            (watch_contexts w) ∧
        sockdata (g_Curl w') = <[s := p]> (sockdata (g_Curl w)) ∧
        events_since w w' =
          [EvNewCurlContext p s; EvMultiAssign s (Some p);
           EvPollStart p (requested_interest action)]
    | Some p =>
        watch_contexts w' =
          alter (λ c, {| socket := socket c;
                         poll_events := Some (requested_interest action) |})
            p (watch_contexts w) ∧
        sockdata (g_Curl w') = <[s := p]> (sockdata (g_Curl w)) ∧
        events_since w w' =
          [EvMultiAssign s (Some p); EvPollStart p (requested_interest action)]
    end
  else if bool_decide (action = CURL_POLL_REMOVE) then
    match socketdata with
    | Some p =>
        watch_contexts w' = delete p (watch_contexts w) ∧
        sockdata (g_Curl w') = delete s (sockdata (g_Curl w)) ∧
        events_since w w' =
          [EvPollStop p; EvDestroyCurlContext p; EvMultiAssign s None]
    | None => w' = w
    end
  else w' = w.

(** What one call of [FrameHook] records. *)
Definition tick_events (w : World) : list Event :=
  EvEmpty RequestQueue (bool_decide (items (g_RequestQueue w) = [])) ::
  (if bool_decide (items (g_RequestQueue w) = []) then []
   else [EvAsyncSend PerformRequestsWake]) ++
  EvEmpty CompletedRequestQueue
    (bool_decide (items (g_CompletedRequestQueue w) = [])) ::
  match items (g_CompletedRequestQueue w) with
  | [] => []
  | c :: _ =>
      [EvLock CompletedRequestQueue; EvPop CompletedRequestQueue c;
       EvOnCompleted c; EvDelete c; EvUnlock CompletedRequestQueue]
  end.

(** What one call of [FrameHook] does to the world. *)
Record tick (w w' : World) : Prop := {
  tick_trace : trace w' = trace w ++ tick_events w;
  tick_pending : g_RequestQueue w' = g_RequestQueue w;
  tick_completed :
    items (g_CompletedRequestQueue w') = drop 1 (items (g_CompletedRequestQueue w));
  tick_wake :
    g_AsyncPerformRequests w' =
      g_AsyncPerformRequests w || negb (bool_decide (items (g_RequestQueue w) = []));
  tick_curl : g_Curl w' = g_Curl w;
  tick_timeout : g_Timeout w' = g_Timeout w;
  tick_stop : g_AsyncStopLoop w' = g_AsyncStopLoop w;
  tick_unloaded : unloaded w' = unloaded w;
  tick_watch : watch_contexts w' = watch_contexts w;
  tick_actions : frame_actions w' = frame_actions w;
  tick_callbacks : callback_tape w' = callback_tape w;
  tick_completions : completion_tape w' = completion_tape w
}.

Definition ticks (n : nat) : list Action := replicate n HostTick.

(** What [SDK_OnUnload] records, in the order of its calls. *)
Definition unload_events : list Event :=
  [EvAsyncSend StopLoopWake; EvStop; EvThreadJoin; EvLoopClose;
   EvMultiCleanup AddressOf_g_Curl; EvGlobalCleanup;
   EvRemoveType htHTTPRequest; EvRemoveType htHTTPResponse;
   EvRemoveType htJSON; EvRemoveType htJSONObjectKeys;
   EvRemoveType htWebSocket; EvRemoveGameFrameHook; EvOnExtUnload;
   EvStoreUnloaded true].

Definition not_wake_event (e : Event) : Prop :=
  e ≠ EvAsyncSend PerformRequestsWake.

Definition always (w : World) : Prop := True.

(** ** Accounting for contexts along a run *)

Definition read_in (t : list Event) : list CURLMsg :=
  omap (λ e, match e with EvMultiInfoRead (Some m) => Some m | _ => None end) t.




(** The easy handle of a context whose [InitCurl()] succeeded. *)
Definition initialised_handle (h : CURL) : Prop :=
  ∃ c, h = curl c ∧ InitCurl c = true.

(** The context of a transfer that [evs] reads a message for. *)
Definition reported (evs : list Event) (c : IHTTPContext) : Prop :=
  ∃ m, m ∈ read_in evs ∧ c = CURLINFO_PRIVATE (easy_handle m).

(** Where the contexts and handles of the world after come from: every
    handle added is that of an initialised context, every context pushed to
    the completed queue was reported by libcurl, and the completed queue,
    the completions and the active set hold nothing else. *)
Definition accounted (w w' : World) : Prop :=
  ∃ evs,
    trace w' = trace w ++ evs ∧
    Forall initialised_handle (admitted_in evs) ∧
    Forall (reported evs) (pushed_in CompletedRequestQueue evs) ∧
    (∀ c, c ∈ items (g_CompletedRequestQueue w') →
          c ∈ items (g_CompletedRequestQueue w) ∨
          c ∈ pushed_in CompletedRequestQueue evs) ∧
    (∀ c, c ∈ completed_in evs →
          c ∈ items (g_CompletedRequestQueue w) ∨
          c ∈ pushed_in CompletedRequestQueue evs) ∧
    (∀ h, h ∈ easy_handles (g_Curl w') →
          h ∈ easy_handles (g_Curl w) ∨ h ∈ admitted_in evs).

(** The completed queue is [Q] and the active set is [H]. *)
Definition settled (Q : list IHTTPContext) (H : list CURL) (w : World) : Prop :=
  items (g_CompletedRequestQueue w) = Q ∧ easy_handles (g_Curl w) = H.

(** An event that admits, reports, hands over or completes nothing. *)
Definition bystander_event (e : Event) : Prop :=
  match e with
  | EvMultiAddHandle _ | EvPush CompletedRequestQueue _ | EvOnCompleted _
  | EvMultiInfoRead (Some _) => False
  | _ => True
  end.

(** libcurl will ask for a timeout of 0 ms at its first entry, and report
    the transfer of easy handle 2 as finished at the first
    [curl_multi_socket_action]. *)
Definition transfer_2_finishes : World :=
  set_callback_tape [[TimerRequest 0]]
    (set_completion_tape [[{| msg := CURLMSG_DONE; easy_handle := 2 |}]] loaded).

(** ** Which thread owns what *)

Definition reactor_action (a : Action) : bool :=
  match a with
  | ReactorWake | ReactorTimer | ReactorPoll _ _ => true
  | _ => false
  end.

(** The state of the reactor thread: the multi handle, the timer, the
    Socket Watch Contexts and what libcurl is still to do. *)
Definition reactor_owned (G : CURLM) (T : option (Z * Z))
    (W : gmap nat CurlContext) (K : list (list CurlRequest))
    (C : list (list CURLMsg)) (w : World) : Prop :=
  g_Curl w = G ∧ g_Timeout w = T ∧ watch_contexts w = W ∧
  callback_tape w = K ∧ completion_tape w = C.

(** The state of the host thread: the torn-down flag and the frame actions
    it is still to run. *)
Definition host_owned (U : bool) (F : list FrameAction) (w : World) : Prop :=
  unloaded w = U ∧ frame_actions w = F.

Definition any_event (e : Event) : Prop := True.

(** An event the reactor thread may record: any but those of the host
    environment (a completion, a log line, a release of a message or of a
    callback, a frame action, an unload call). *)
Definition reactor_event (e : Event) : Prop :=
  match e with
  | EvOnCompleted _ | EvLogMessage _ | EvLogError _ | EvFree _
  | EvInvoke _ | EvRelease _ | EvAddFrameAction _ | EvStoreUnloaded _
  | EvThreadJoin | EvLoopClose | EvMultiCleanup _ | EvGlobalCleanup
  | EvRemoveType _ | EvRemoveGameFrameHook | EvOnExtUnload => False
  | _ => True
  end.

(** ** The monad *)

Lemma bind_Some {A B} (m : M A) (f : A → M B) (w w2 : World) (b : B) :
  (m ≫= f) w = Some (b, w2) ↔ ∃ a w1, m w = Some (a, w1) ∧ f a w1 = Some (b, w2).
Proof.
  unfold mbind, M_bind. split.
  - destruct (m w) as [[a w1]|] eqn:E; [|discriminate].
    intros H. exists a, w1. auto.
  - intros (a & w1 & -> & H). exact H.
Qed.

Lemma exec_Some {A} (m : M A) (w w' : World) :
  exec m w = Some w' ↔ ∃ a, m w = Some (a, w').
Proof.
  unfold exec. split.
  - destruct (m w) as [[a w1]|]; [|discriminate]. intros [= ->]. eauto.
  - intros [a ->]. reflexivity.
Qed.

Lemma events_since_app (w w' : World) (evs : list Event) :
  trace w' = trace w ++ evs → events_since w w' = evs.
Proof. intros H. unfold events_since. rewrite H. apply drop_app_length. Qed.

Lemma returns_ret {A} (R : World → World → Prop) `{!Reflexive R} (a : A) :
  returns R (mret a).
Proof. intros w. exists a, w. split; reflexivity. Qed.

Lemma returns_bind {A B} (R : World → World → Prop) `{!Transitive R}
    (m : M A) (f : A → M B) :
  returns R m → (∀ a, returns R (f a)) → returns R (m ≫= f).
Proof.
  intros Hm Hf w. destruct (Hm w) as (a & w1 & E1 & R1).
  destruct (Hf a w1) as (b & w2 & E2 & R2).
  exists b, w2. split; [|etrans; eauto].
  apply bind_Some. eauto.
Qed.

Lemma returns_get {A} (R : World → World → Prop) `{!Reflexive R} (f : World → A) :
  returns R (get f).
Proof. intros w. exists (f w), w. split; reflexivity. Qed.

Lemma respects_ret {A} (R : World → World → Prop) `{!Reflexive R} (a : A) :
  respects R (mret a).
Proof. intros w a' w' [= _ <-]. reflexivity. Qed.

Lemma respects_bind {A B} (R : World → World → Prop) `{!Transitive R}
    (m : M A) (f : A → M B) :
  respects R m → (∀ a, respects R (f a)) → respects R (m ≫= f).
Proof.
  intros Hm Hf w b w2 (a & w1 & E1 & E2)%bind_Some.
  etrans; [eapply Hm | eapply Hf]; eauto.
Qed.

Lemma respects_get {A} (R : World → World → Prop) `{!Reflexive R} (f : World → A) :
  respects R (get f).
Proof. intros w a w' [= _ <-]. reflexivity. Qed.

Lemma respects_fail {A} (R : World → World → Prop) : respects R (@fail A).
Proof. intros w a w' [=]. Qed.

Lemma own_events_app (t1 t2 : list Event) :
  own_events (t1 ++ t2) = own_events t1 ++ own_events t2.
Proof. apply filter_app. Qed.

#[local] Instance callback_frame_refl : Reflexive callback_frame.
Proof. intros w. split; try reflexivity. exists []. by rewrite app_nil_r. Qed.

#[local] Instance callback_frame_trans : Transitive callback_frame.
Proof.
  intros w1 w2 w3 [] []. split; try congruence.
  destruct cf_trace0 as (e1 & T1 & O1), cf_trace1 as (e2 & T2 & O2).
  exists (e1 ++ e2). split.
  - by rewrite T2, T1, app_assoc.
  - by rewrite own_events_app, O1, O2.
Qed.

(** ** What the callbacks of libcurl leave alone *)

Ltac frame_primitive :=
  intros w; eexists _, _; split; [reflexivity|];
  split; simpl; try reflexivity;
  eexists; split; [rewrite <- ?app_assoc; reflexivity | reflexivity].

Lemma uv_timer_stop_frame : returns callback_frame uv_timer_stop.
Proof. frame_primitive. Qed.

Lemma uv_timer_start_frame (timeout repeat : Z) :
  returns callback_frame (uv_timer_start timeout repeat).
Proof. frame_primitive. Qed.

Lemma uv_poll_start_frame (p : CurlContextPtr) (events : Z) :
  returns callback_frame (uv_poll_start p events).
Proof. frame_primitive. Qed.

Lemma new_CurlContext_frame (s : curl_socket_t) :
  returns callback_frame (new_CurlContext s).
Proof. frame_primitive. Qed.

Lemma Destroy_frame (p : CurlContextPtr) : returns callback_frame (Destroy p).
Proof. frame_primitive. Qed.

Lemma curl_multi_assign_frame (s : curl_socket_t) (p : option CurlContextPtr) :
  returns callback_frame (curl_multi_assign s p).
Proof. frame_primitive. Qed.

Lemma CurlSocketCallback_frame (easy : CURL) (s : curl_socket_t) (action : Z)
    (socketdata : option CurlContextPtr) :
  returns callback_frame (CurlSocketCallback easy s action socketdata).
Proof.
  unfold CurlSocketCallback.
  apply returns_bind; [apply _| |intros; apply returns_ret, _].
  repeat case_match;
    repeat match goal with
           | |- returns _ (mret _) => apply returns_ret, _
           | |- returns _ (new_CurlContext _) => apply new_CurlContext_frame
           | |- returns _ (Destroy _) => apply Destroy_frame
           | |- returns _ (curl_multi_assign _ _) => apply curl_multi_assign_frame
           | |- returns _ (uv_poll_start _ _) => apply uv_poll_start_frame
           | |- returns ?R (@mbind _ _ _ _ ?f ?m) =>
               apply (returns_bind R m f); [|intros; cbv beta zeta]
           end.
Qed.

Lemma CurlTimeoutCallback_frame (timeout_ms : Z) :
  returns callback_frame (CurlTimeoutCallback timeout_ms).
Proof.
  unfold CurlTimeoutCallback.
  case_match;
    (apply returns_bind; [apply _| |intros; apply returns_ret, _]).
  - apply uv_timer_stop_frame.
  - apply uv_timer_start_frame.
Qed.

Lemma multi_callback_frame (r : CurlRequest) :
  returns callback_frame (multi_callback r).
Proof.
  destruct r; simpl.
  - apply returns_bind; [apply _|apply returns_get, _|intros].
    apply returns_bind; [apply _|apply CurlSocketCallback_frame|intros].
    apply returns_ret, _.
  - apply returns_bind; [apply _|apply CurlTimeoutCallback_frame|intros].
    apply returns_ret, _.
Qed.

Lemma multi_callbacks_frame (rs : list CurlRequest) :
  returns callback_frame (multi_callbacks rs).
Proof.
  induction rs as [|r rs IH]; simpl.
  - apply returns_ret, _.
  - apply returns_bind; [apply _|apply multi_callback_frame|intros; apply IH].
Qed.

Lemma multi_reenter_frame : returns callback_frame multi_reenter.
Proof.
  intros w. unfold multi_reenter.
  destruct (callback_tape w) as [|rs rest] eqn:E.
  - exists tt, w. split; [|reflexivity].
    unfold mbind, M_bind, get. by rewrite E.
  - destruct (multi_callbacks_frame rs (set_callback_tape rest w))
      as (a & w' & Hr & F).
    exists a, w'. split.
    + unfold mbind, M_bind, get, modify in *. rewrite E. exact Hr.
    + destruct F. split; try assumption.
Qed.

(** ** libcurl entry points that call back *)

Lemma bind_run {A B} (m : M A) (f : A → M B) (w w1 : World) (a : A) :
  m w = Some (a, w1) → (m ≫= f) w = f a w1.
Proof. intros E. unfold mbind, M_bind. by rewrite E. Qed.

Lemma curl_multi_add_handle_spec (h : CURL) (w : World) :
  ∃ w', curl_multi_add_handle h w = Some (tt, w') ∧
    callback_frame
      (set_g_Curl {| easy_handles := easy_handles (g_Curl w) ++ [h];
                     messages := messages (g_Curl w);
                     sockdata := sockdata (g_Curl w) |}
         (set_trace (trace w ++ [EvMultiAddHandle h]) w)) w'.
Proof.
  edestruct multi_reenter_frame as ([] & w' & E & F).
  exists w'. split; [|exact F]. exact E.
Qed.

Lemma curl_multi_remove_handle_spec (h : CURL) (w : World) :
  ∃ w', curl_multi_remove_handle h w = Some (tt, w') ∧
    callback_frame
      (set_g_Curl {| easy_handles := filter (λ h', h' ≠ h) (easy_handles (g_Curl w));
                     messages := messages (g_Curl w);
                     sockdata := sockdata (g_Curl w) |}
         (set_trace (trace w ++ [EvMultiRemoveHandle h]) w)) w'.
Proof.
  edestruct multi_reenter_frame as ([] & w' & E & F).
  exists w'. split; [|exact F]. exact E.
Qed.

(** ** The admission loop *)

Lemma Empty_run (q : QueueId) (w : World) :
  Empty q w =
    Some (bool_decide (items (queue q w) = []),
          set_trace (trace w ++ [EvEmpty q (bool_decide (items (queue q w) = []))]) w).
Proof. reflexivity. Qed.

Lemma Pop_run (q : QueueId) (w : World) (c : IHTTPContext) (rest : list IHTTPContext) :
  items (queue q w) = c :: rest →
  Pop q w =
    Some (c, set_queue q {| items := rest; locked := locked (queue q w) |}
               (set_trace (trace w ++ [EvPop q c]) w)).
Proof.
  intros E. unfold Pop. erewrite bind_run by reflexivity. rewrite E.
  destruct q; reflexivity.
Qed.

Lemma AsyncPerformRequests_loop_S (fuel : nat) (count : Z) :
  AsyncPerformRequests_loop (S fuel) count =
    (e ← Empty RequestQueue;
     if negb e && (count <? MAX_PROCESS)%Z
     then
       context ← Pop RequestQueue;
       ok ← call_InitCurl context;
       if negb ok
       then delete_context context;; AsyncPerformRequests_loop fuel count
       else curl_multi_add_handle (curl context);;
            AsyncPerformRequests_loop fuel (count + 1)%Z
     else mret tt).
Proof. reflexivity. Qed.

Lemma initialised_cons (c : IHTTPContext) (l : list IHTTPContext) :
  initialised (c :: l) = if InitCurl c then c :: initialised l else initialised l.
Proof.
  unfold initialised. destruct (InitCurl c) eqn:E.
  - by rewrite filter_cons_True.
  - rewrite filter_cons_False; [done|]. by rewrite E.
Qed.

Lemma AsyncPerformRequests_loop_spec (fuel : nat) :
  ∀ (count : Z) (w : World),
    length (items (g_RequestQueue w)) < fuel →
    (0 ≤ count ≤ MAX_PROCESS)%Z →
    ∃ w' popped,
      AsyncPerformRequests_loop fuel count w = Some (tt, w') ∧
      admission count w w' popped.
Proof.
  induction fuel as [|fuel IH]; intros count w Hfuel Hcount; [lia|].
  rewrite AsyncPerformRequests_loop_S.
  erewrite bind_run by apply Empty_run.
  change (queue RequestQueue w) with (g_RequestQueue w).
  destruct (items (g_RequestQueue w)) as [|c rest] eqn:Hitems.
  - (* the queue is empty *)
    eexists _, []. split; [reflexivity|].
    split; simpl; rewrite ?Hitems; try done.
    + intros before c after H. by destruct before.
    + by left.
    + by rewrite app_nil_r.
    + by eexists.
  - rewrite bool_decide_eq_false_2 by done.
    destruct (count <? MAX_PROCESS)%Z eqn:Hcap; cbn [negb andb].
    + (* one more pass *)
      apply Z.ltb_lt in Hcap.
      erewrite bind_run by (apply Pop_run; simpl; apply Hitems).
      unfold call_InitCurl.
      erewrite bind_run; [|erewrite bind_run by reflexivity; reflexivity].
      destruct (InitCurl c) eqn:Hinit; cbn [negb].
      * (* admitted *)
        match goal with
        | |- ∃ _ _, (_ ≫= _) ?w2 = _ ∧ _ =>
            destruct (curl_multi_add_handle_spec (curl c) w2) as (w3 & E3 & F3)
        end.
        erewrite bind_run by exact E3.
        destruct F3 as [Fq Fc Fh Fm Fw Fs Fu Fa Ft (e3 & T3 & O3)].
        simpl in *.
        destruct (IH (count + 1)%Z w3) as (w' & popped & E & R).
        { rewrite Fq. simpl. lia. }
        { lia. }
        exists w', (c :: popped). split; [exact E|].
        destruct R as [Rq Rl Rb Rs Rh Rc Rm [] (e & T & O)].
        split.
        -- rewrite Hitems. simpl. rewrite <- Rq, Fq. reflexivity.
        -- rewrite Rl, Fq. reflexivity.
        -- intros [|c' before] c0 after H; simplify_eq/=.
           ++ unfold initialised. simpl. lia.
           ++ rewrite initialised_cons, Hinit. simpl.
              specialize (Rb _ _ _ eq_refl). lia.
        -- destruct Rs as [Rs|Rs]; [by left|right].
           rewrite initialised_cons, Hinit. simpl. lia.
        -- rewrite Rh, Fh, initialised_cons, Hinit. simpl.
           by rewrite <- app_assoc.
        -- congruence.
        -- congruence.
        -- split; congruence.
        -- eexists. split.
           ++ rewrite T, T3. rewrite <- !app_assoc. reflexivity.
           ++ rewrite !own_events_app, O3, O. simpl.
              unfold admission_events at 2. rewrite Hinit. reflexivity.
      * (* destroyed *)
        erewrite bind_run by reflexivity.
        match goal with
        | |- ∃ _ _, _ _ ?w2 = _ ∧ _ =>
            destruct (IH count w2) as (w' & popped & E & R)
        end.
        { simpl. simpl in Hfuel. lia. }
        { lia. }
        exists w', (c :: popped). split; [exact E|].
        destruct R as [Rq Rl Rb Rs Rh Rc Rm [] (e & T & O)].
        simpl in *.
        split.
        -- rewrite Hitems. simpl. rewrite <- Rq. reflexivity.
        -- by rewrite Rl.
        -- intros [|c' before] c0 after H; simplify_eq/=.
           ++ unfold initialised. simpl. lia.
           ++ rewrite initialised_cons, Hinit.
              specialize (Rb _ _ _ eq_refl). lia.
        -- destruct Rs as [Rs|Rs]; [by left|right].
           by rewrite initialised_cons, Hinit.
        -- by rewrite Rh, initialised_cons, Hinit.
        -- congruence.
        -- congruence.
        -- split; congruence.
        -- eexists. split.
           ++ rewrite T. rewrite <- !app_assoc. reflexivity.
           ++ rewrite !own_events_app, O. simpl.
              unfold admission_events at 2. rewrite Hinit. reflexivity.
    + (* the cap is reached *)
      apply Z.ltb_ge in Hcap.
      eexists _, []. split; [reflexivity|].
      split; simpl; rewrite ?Hitems; try done.
      * intros before c' after H. by destruct before.
      * right. unfold initialised. simpl. lia.
      * by rewrite app_nil_r.
      * by eexists.
Qed.

Lemma AsyncPerformRequests_spec (w : World) :
  ∃ w' popped,
    AsyncPerformRequests w = Some (tt, w') ∧ admission_drain w w' popped.
Proof.
  unfold AsyncPerformRequests.
  erewrite bind_run by reflexivity.
  erewrite bind_run by reflexivity.
  match goal with
  | |- ∃ _ _, (AsyncPerformRequests_loop ?f _ ≫= _) ?w1 = _ ∧ _ =>
      destruct (AsyncPerformRequests_loop_spec f 0 w1) as (w2 & popped & E & R)
  end.
  { simpl. lia. }
  { unfold MAX_PROCESS. lia. }
  erewrite bind_run by exact E.
  eexists _, popped. split; [reflexivity|]. clear E.
  destruct R as [Rq Rl Rb Rs Rh Rc Rm [] (e & T & O)]. simpl in *.
  split; simpl; try done.
  eexists. split.
  - rewrite T. rewrite <- !app_assoc. reflexivity.
  - rewrite !own_events_app, O. simpl. by rewrite <- app_assoc.
Qed.

(** ** Reading the events of the admission drain *)

Lemma omap_own_events {A} (f : Event → option A) (t : list Event) :
  (∀ e, callback_event e = true → f e = None) →
  omap f (own_events t) = omap f t.
Proof.
  intros Hf. induction t as [|e t IH]; [done|].
  unfold own_events in *. destruct (callback_event e) eqn:E.
  - rewrite filter_cons_False by (rewrite E; auto).
    simpl. by rewrite (Hf e E).
  - rewrite filter_cons_True by (by rewrite E).
    simpl. destruct (f e); [f_equal|]; exact IH.
Qed.

Lemma admitted_in_own (t : list Event) : admitted_in (own_events t) = admitted_in t.
Proof. apply omap_own_events. by intros []. Qed.

Lemma destroyed_in_own (t : list Event) : destroyed_in (own_events t) = destroyed_in t.
Proof. apply omap_own_events. by intros []. Qed.

Lemma completed_in_own (t : list Event) : completed_in (own_events t) = completed_in t.
Proof. apply omap_own_events. by intros []. Qed.


Lemma admitted_in_admission (popped : list IHTTPContext) (t : list Event) :
  admitted_in (flat_map admission_events popped ++ t) =
    map curl (initialised popped) ++ admitted_in t.
Proof.
  induction popped as [|c popped IH]; [done|].
  rewrite initialised_cons. simpl. destruct (InitCurl c); simpl; by rewrite IH.
Qed.

Lemma destroyed_in_admission (popped : list IHTTPContext) (t : list Event) :
  destroyed_in (flat_map admission_events popped ++ t) =
    filter (λ c, InitCurl c = false) popped ++ destroyed_in t.
Proof.
  induction popped as [|c popped IH]; [done|].
  simpl. destruct (InitCurl c) eqn:E; simpl; rewrite IH.
  - rewrite filter_cons_False; [done|]. by rewrite E.
  - by rewrite filter_cons_True.
Qed.




Lemma initialised_app (l1 l2 : list IHTTPContext) :
  initialised (l1 ++ l2) = initialised l1 ++ initialised l2.
Proof. apply filter_app. Qed.

Lemma admission_drain_bound (w w' : World) (popped : list IHTTPContext) :
  admission_drain w w' popped →
  (Z.of_nat (length (initialised popped)) ≤ MAX_PROCESS)%Z.
Proof.
  intros D. destruct popped as [|c popped _] using rev_ind.
  - unfold MAX_PROCESS. simpl. lia.
  - pose proof (drain_below_cap _ _ _ D popped c [] eq_refl) as B.
    rewrite initialised_app, length_app, initialised_cons.
    destruct (InitCurl c); simpl; lia.
Qed.

Lemma events_since_refl (w : World) : events_since w w = [].
Proof. unfold events_since. by rewrite drop_all. Qed.

Lemma admitted_in_drain (w w' : World) (popped : list IHTTPContext) :
  admission_drain w w' popped →
  admitted_in (events_since w w') = map curl (initialised popped).
Proof.
  intros D. destruct (drain_trace _ _ _ D) as (evs & T & O).
  rewrite (events_since_app _ _ _ T), <- admitted_in_own, O.
  change (EvLock RequestQueue :: ?l) with ([EvLock RequestQueue] ++ l).
  simpl. rewrite admitted_in_admission. simpl. by rewrite app_nil_r.
Qed.

Lemma destroyed_in_drain (w w' : World) (popped : list IHTTPContext) :
  admission_drain w w' popped →
  destroyed_in (events_since w w') = filter (λ c, InitCurl c = false) popped.
Proof.
  intros D. destruct (drain_trace _ _ _ D) as (evs & T & O).
  rewrite (events_since_app _ _ _ T), <- destroyed_in_own, O.
  change (EvLock RequestQueue :: ?l) with ([EvLock RequestQueue] ++ l).
  simpl. rewrite destroyed_in_admission. simpl. by rewrite app_nil_r.
Qed.

Lemma step_ReactorWake (w : World) :
  step ReactorWake w =
    if g_AsyncPerformRequests w
    then AsyncPerformRequests (set_g_AsyncPerformRequests false w)
    else Some (tt, w).
Proof.
  unfold step. erewrite bind_run by reflexivity.
  by destruct (g_AsyncPerformRequests w).
Qed.

(** C2.  One wake event adds at most [MAX_PROCESS] = 10 easy handles to the
    multi handle, whatever the length of the pending queue.  The contexts it
    pops are a prefix of the queue; each one is popped while fewer than 10
    were admitted, and the drain ends with the queue empty or with 10
    admitted. *)
Theorem wake_admits_at_most_MAX_PROCESS (w : World) :
  ∃ w' popped,
    exec (step ReactorWake) w = Some w' ∧
    items (g_RequestQueue w) = popped ++ items (g_RequestQueue w') ∧
    admitted_in (events_since w w') = map curl (initialised popped) ∧
    easy_handles (g_Curl w') =
      easy_handles (g_Curl w) ++ map curl (initialised popped) ∧
    length (admitted_in (events_since w w')) ≤ 10 ∧
    length (easy_handles (g_Curl w')) ≤ length (easy_handles (g_Curl w)) + 10 ∧
    (∀ before c after, popped = before ++ c :: after →
       length (initialised before) < 10) ∧
    (if g_AsyncPerformRequests w
     then items (g_RequestQueue w') = [] ∨ length (initialised popped) = 10
     else popped = []).
Proof.
  destruct (g_AsyncPerformRequests w) eqn:Hwake.
  - destruct (AsyncPerformRequests_spec (set_g_AsyncPerformRequests false w))
      as (w' & popped & E & D).
    assert (events_since w w' =
            events_since (set_g_AsyncPerformRequests false w) w') as Hev
      by reflexivity.
    pose proof (admission_drain_bound _ _ _ D) as B. unfold MAX_PROCESS in B.
    exists w', popped. rewrite Hev, (admitted_in_drain _ _ _ D).
    split; [apply exec_Some; exists tt; by rewrite step_ReactorWake, Hwake|].
    destruct D as [Dq _ Db Ds Dh _ _ _ _]. simpl in *.
    unfold MAX_PROCESS in *.
    repeat split; try done.
    + rewrite length_map. lia.
    + rewrite Dh, length_app, length_map. lia.
    + intros before c after H. specialize (Db _ _ _ H). lia.
    + destruct Ds; [by left|right; lia].
  - exists w, []. rewrite events_since_refl.
    split; [apply exec_Some; exists tt; by rewrite step_ReactorWake, Hwake|].
    simpl.
    repeat split; try done; try lia.
    + by rewrite app_nil_r.
    + intros before c after H. by destruct before.
Qed.

(** C9.  Only the contexts whose [InitCurl()] succeeds count toward the cap:
    a context is popped whenever fewer than 10 of those popped before it
    were initialised.  When every pending context fails, one drain pops and
    deletes all of them and admits none. *)
Theorem failed_initialisations_do_not_count (w : World) :
  ∃ w' popped,
    exec AsyncPerformRequests w = Some w' ∧
    items (g_RequestQueue w) = popped ++ items (g_RequestQueue w') ∧
    admitted_in (events_since w w') = map curl (initialised popped) ∧
    destroyed_in (events_since w w') = filter (λ c, InitCurl c = false) popped ∧
    (∀ before c after, popped = before ++ c :: after →
       length (initialised before) < 10) ∧
    (items (g_RequestQueue w') = [] ∨ length (initialised popped) = 10) ∧
    (Forall (λ c, InitCurl c = false) (items (g_RequestQueue w)) →
     popped = items (g_RequestQueue w) ∧
     items (g_RequestQueue w') = [] ∧
     destroyed_in (events_since w w') = items (g_RequestQueue w) ∧
     admitted_in (events_since w w') = [] ∧
     easy_handles (g_Curl w') = easy_handles (g_Curl w)).
Proof.
  destruct (AsyncPerformRequests_spec w) as (w' & popped & E & D).
  exists w', popped.
  rewrite (admitted_in_drain _ _ _ D), (destroyed_in_drain _ _ _ D).
  destruct D as [Dq _ Db Ds Dh _ _ _ _]. unfold MAX_PROCESS in *.
  split; [apply exec_Some; eauto|].
  split; [done|]. split; [done|]. split; [done|].
  split; [intros before c after H; specialize (Db _ _ _ H); lia|].
  split; [destruct Ds; [by left|right; lia]|].
  intros Hfail. rewrite Dq in Hfail. apply Forall_app in Hfail as [Hfail _].
  assert (initialised popped = []) as Hnone.
  { clear -Hfail. induction Hfail as [|c l Hc _ IH]; [done|].
    by rewrite initialised_cons, Hc. }
  assert (filter (λ c, InitCurl c = false) popped = popped) as Hall.
  { clear -Hfail. induction Hfail as [|c l Hc _ IH]; [done|].
    rewrite filter_cons_True by done. by rewrite IH. }
  rewrite Hnone in *. simpl in *.
  destruct Ds as [Ds|Ds]; [|lia].
  rewrite Ds, app_nil_r in Dq. subst popped.
  rewrite Hall, Dh, app_nil_r. done.
Qed.

(** ** The completion loop *)

Lemma curl_multi_info_read_run (w : World) :
  curl_multi_info_read w =
    match messages (g_Curl w) with
    | [] => Some (None, set_trace (trace w ++ [EvMultiInfoRead None]) w)
    | m :: rest =>
        Some (Some m,
              set_g_Curl {| easy_handles := easy_handles (g_Curl w);
                            messages := rest;
                            sockdata := sockdata (g_Curl w) |}
                (set_trace (trace w ++ [EvMultiInfoRead (Some m)]) w))
    end.
Proof.
  unfold curl_multi_info_read. erewrite bind_run by reflexivity.
  by destruct (messages (g_Curl w)).
Qed.

Lemma CheckCompletedRequests_loop_S (fuel : nat) :
  CheckCompletedRequests_loop (S fuel) =
    (message ← curl_multi_info_read;
     match message with
     | None => mret tt
     | Some message =>
         if negb (is_done message)
         then CheckCompletedRequests_loop fuel
         else
           let easy := easy_handle message in
           curl_multi_remove_handle easy;;
           context ← curl_easy_getinfo_PRIVATE easy;
           Lock CompletedRequestQueue;;
           Push CompletedRequestQueue context;;
           Unlock CompletedRequestQueue;;
           CheckCompletedRequests_loop fuel
     end).
Proof. reflexivity. Qed.

Lemma finished_handles_cons (m : CURLMsg) (l : list CURLMsg) :
  finished_handles (m :: l) =
    if is_done m then easy_handle m :: finished_handles l else finished_handles l.
Proof.
  unfold finished_handles. destruct (is_done m) eqn:E.
  - by rewrite filter_cons_True.
  - rewrite filter_cons_False; [done|]. by rewrite E.
Qed.

Lemma filter_not_finished (h : CURL) (done : list CURL) (l : list CURL) :
  filter (λ h', h' ∉ done) (filter (λ h', h' ≠ h) l) =
    filter (λ h', h' ∉ h :: done) l.
Proof.
  rewrite list_filter_filter. apply list_filter_iff.
  intros h'. rewrite not_elem_of_cons. split; intros []; by split.
Qed.

Lemma CheckCompletedRequests_loop_spec (fuel : nat) :
  ∀ w : World,
    length (messages (g_Curl w)) < fuel →
    ∃ w', CheckCompletedRequests_loop fuel w = Some (tt, w') ∧
          completion_drain w w'.
Proof.
  induction fuel as [|fuel IH]; intros w Hfuel; [lia|].
  rewrite CheckCompletedRequests_loop_S.
  destruct (messages (g_Curl w)) as [|m rest] eqn:Hmsgs.
  - (* no message is left *)
    erewrite bind_run
      by (rewrite curl_multi_info_read_run, Hmsgs; reflexivity).
    eexists. split; [reflexivity|].
    split; simpl; rewrite ?Hmsgs; try done.
    + unfold finished_handles. simpl.
      induction (easy_handles (g_Curl w)) as [|h l IHl]; [done|].
      rewrite filter_cons_True by apply not_elem_of_nil. by rewrite <- IHl.
    + by rewrite app_nil_r.
    + by eexists.
  - erewrite bind_run
      by (rewrite curl_multi_info_read_run, Hmsgs; reflexivity).
    cbv beta iota zeta.
    destruct (is_done m) eqn:Hdone; cbn [negb].
    + (* a finished transfer *)
      match goal with
      | |- ∃ _, (_ ≫= _) ?w1 = _ ∧ _ =>
          destruct (curl_multi_remove_handle_spec (easy_handle m) w1)
            as (w2 & E2 & F2)
      end.
      erewrite bind_run by exact E2.
      destruct F2 as [Fq Fc Fh Fm Fw Fs Fu Fa Ft (e2 & T2 & O2)].
      simpl in *.
      do 4 (erewrite bind_run by reflexivity).
      match goal with
      | |- ∃ _, _ _ ?w5 = _ ∧ _ => destruct (IH w5) as (w' & E & R)
      end.
      { simpl. rewrite Fm. simpl in Hfuel. lia. }
      exists w'. split; [exact E|]. clear E.
      destruct R as [Rm Rh Rc Rq [] (e & T & O)]. simpl in *.
      split; simpl; rewrite ?Hmsgs, ?finished_handles_cons, ?Hdone;
        try congruence.
      * rewrite Rh, Fm, Fh. apply filter_not_finished.
      * rewrite Rc, Fc, Fm. simpl. by rewrite <- app_assoc.
      * split; congruence.
      * eexists. split.
        -- rewrite T, T2. rewrite <- !app_assoc. reflexivity.
        -- rewrite !own_events_app, O2, O, Fm. simpl.
           unfold completion_events at 2. rewrite Hdone. reflexivity.
    + (* another kind of message *)
      match goal with
      | |- ∃ _, _ _ ?w1 = _ ∧ _ => destruct (IH w1) as (w' & E & R)
      end.
      { simpl. simpl in Hfuel. lia. }
      exists w'. split; [exact E|]. clear E.
      destruct R as [Rm Rh Rc Rq [] (e & T & O)]. simpl in *.
      split; simpl; rewrite ?Hmsgs, ?finished_handles_cons, ?Hdone;
        try congruence.
      * split; congruence.
      * eexists. split.
        -- rewrite T. rewrite <- !app_assoc. reflexivity.
        -- rewrite !own_events_app, O. simpl.
           unfold completion_events at 2. rewrite Hdone. reflexivity.
Qed.

Lemma CheckCompletedRequests_spec (w : World) :
  ∃ w', CheckCompletedRequests w = Some (tt, w') ∧ completion_drain w w'.
Proof.
  unfold CheckCompletedRequests. erewrite bind_run by reflexivity.
  apply CheckCompletedRequests_loop_spec. lia.
Qed.


Lemma completed_in_completion (l : list CURLMsg) (t : list Event) :
  completed_in (flat_map completion_events l ++ t) = completed_in t.
Proof.
  induction l as [|m l IH]; [done|].
  simpl. unfold completion_events at 1. by destruct (is_done m).
Qed.

Lemma CheckCompletedRequests_loop_skip (fuel : nat) :
  ∀ w : World,
    length (messages (g_Curl w)) < fuel →
    Forall (λ m, is_done m = false) (messages (g_Curl w)) →
    CheckCompletedRequests_loop fuel w =
      Some (tt,
            set_trace
              (trace w ++
               map (λ m, EvMultiInfoRead (Some m)) (messages (g_Curl w)) ++
               [EvMultiInfoRead None])
              (with_messages [] w)).
Proof.
  induction fuel as [|fuel IH]; intros w Hfuel Hskip; [lia|].
  rewrite CheckCompletedRequests_loop_S.
  destruct (messages (g_Curl w)) as [|m rest] eqn:Hmsgs.
  - erewrite bind_run
      by (rewrite curl_multi_info_read_run, Hmsgs; reflexivity).
    destruct w as [? ? [? ? ?] ? ? ? ? ? ? ? ? ?]. simpl in *. by subst.
  - erewrite bind_run
      by (rewrite curl_multi_info_read_run, Hmsgs; reflexivity).
    cbv beta iota zeta.
    apply Forall_cons in Hskip as [Hm Hskip]. rewrite Hm. cbn [negb].
    rewrite IH; [|simpl in *; lia|done].
    simpl. unfold with_messages, set_trace, set_g_Curl. simpl.
    by rewrite <- app_assoc.
Qed.

(** C5.  [CheckCompletedRequests] reads messages until none is left.  For a
    [CURLMSG_DONE] message it removes the easy handle from the multi handle
    and then pushes the context stored in the handle onto the completed
    queue, between [Lock] and [Unlock] of that queue; for any other message
    it does nothing but read it.  It calls no [OnCompleted()] and leaves the
    pending queue alone. *)
Theorem completions_move_to_the_completed_queue (w : World) :
  ∃ w',
    exec CheckCompletedRequests w = Some w' ∧
    messages (g_Curl w') = [] ∧
    easy_handles (g_Curl w') =
      filter (λ h, h ∉ finished_handles (messages (g_Curl w)))
        (easy_handles (g_Curl w)) ∧
    items (g_CompletedRequestQueue w') =
      items (g_CompletedRequestQueue w) ++
      map CURLINFO_PRIVATE (finished_handles (messages (g_Curl w))) ∧
    own_events (events_since w w') =
      flat_map completion_events (messages (g_Curl w)) ++ [EvMultiInfoRead None] ∧
    completed_in (events_since w w') = [] ∧
    g_RequestQueue w' = g_RequestQueue w ∧
    (Forall (λ m, is_done m = false) (messages (g_Curl w)) →
     w' = set_trace
            (trace w ++
             map (λ m, EvMultiInfoRead (Some m)) (messages (g_Curl w)) ++
             [EvMultiInfoRead None])
            (with_messages [] w)).
Proof.
  destruct (CheckCompletedRequests_spec w) as (w' & E & D).
  exists w'. destruct D as [Dm Dh Dc Dq _ (evs & T & O)].
  rewrite (events_since_app _ _ _ T), <- completed_in_own, O.
  split; [apply exec_Some; eauto|].
  repeat split; try done.
  - by rewrite completed_in_completion.
  - intros Hskip. unfold CheckCompletedRequests in E.
    erewrite bind_run in E by reflexivity.
    rewrite CheckCompletedRequests_loop_skip in E; [|lia|done].
    congruence.
Qed.

(** ** The timer *)

Lemma curl_multi_socket_action_spec (s : curl_socket_t) (flags : Z) (w : World) :
  ∃ w', curl_multi_socket_action s flags w = Some (tt, w') ∧
        socket_action_frame s flags w w'.
Proof.
  unfold curl_multi_socket_action.
  erewrite bind_run by reflexivity.
  edestruct multi_reenter_frame as ([] & w1 & E1 & F1).
  erewrite bind_run by exact E1.
  erewrite bind_run by reflexivity.
  destruct F1 as [Fq Fc Fh Fm Fw Fs Fu Fa Ft (e1 & T1 & O1)]. simpl in *.
  destruct (completion_tape w1) as [|ms rest].
  - exists w1. split; [reflexivity|].
    split; try done.
    + exists []. by rewrite app_nil_r.
    + exists e1. split; [|done]. by rewrite T1, <- app_assoc.
  - eexists. split; [reflexivity|].
    split; simpl; try done.
    + exists ms. by rewrite Fm.
    + exists e1. split; [|done]. by rewrite T1, <- app_assoc.
Qed.

Lemma PerformRequests_spec (w : World) :
  ∃ w1 w2,
    curl_multi_socket_action CURL_SOCKET_TIMEOUT 0 w = Some (tt, w1) ∧
    socket_action_frame CURL_SOCKET_TIMEOUT 0 w w1 ∧
    CheckCompletedRequests w1 = Some (tt, w2) ∧
    completion_drain w1 w2 ∧
    PerformRequests w = Some (tt, w2).
Proof.
  destruct (curl_multi_socket_action_spec CURL_SOCKET_TIMEOUT 0 w)
    as (w1 & E1 & F1).
  destruct (CheckCompletedRequests_spec w1) as (w2 & E2 & D2).
  exists w1, w2.
  split; [exact E1|]. split; [exact F1|]. split; [exact E2|].
  split; [exact D2|].
  unfold PerformRequests. erewrite bind_run by exact E1. exact E2.
Qed.

Lemma step_ReactorTimer (w : World) :
  step ReactorTimer w =
    match g_Timeout w with
    | Some (_, repeat) =>
        PerformRequests
          (set_g_Timeout (if bool_decide (repeat = 0%Z) then None
                          else Some (repeat, repeat)) w)
    | None => Some (tt, w)
    end.
Proof.
  unfold step. erewrite bind_run by reflexivity.
  by destruct (g_Timeout w) as [[]|].
Qed.

(** C6.  A deadline of -1 stops the shared timer; any other deadline the
    transfer manager gives (0 or more) starts it with that timeout and
    repeat 0, and nothing but the timer changes.  When the timer so started
    expires, the handler first calls [curl_multi_socket_action] with
    [CURL_SOCKET_TIMEOUT] and no flags, then drains the finished
    transfers. *)
Theorem shared_timer_follows_the_deadline (timeout_ms : Z) (w : World) :
  (-1 ≤ timeout_ms ≤ LONG_MAX)%Z →
  ∃ w',
    CurlTimeoutCallback timeout_ms w = Some (0%Z, w') ∧
    set_trace (trace w) (set_g_Timeout (g_Timeout w) w') = w ∧
    (if bool_decide (timeout_ms = (-1)%Z)
     then g_Timeout w' = None ∧ events_since w w' = [EvTimerStop]
     else
       g_Timeout w' = Some (timeout_ms, 0%Z) ∧
       events_since w w' = [EvTimerStart timeout_ms 0] ∧
       ∃ w1 w2,
         curl_multi_socket_action CURL_SOCKET_TIMEOUT 0 (set_g_Timeout None w')
           = Some (tt, w1) ∧
         CheckCompletedRequests w1 = Some (tt, w2) ∧
         exec (step ReactorTimer) w' = Some w2 ∧
         own_events (events_since w' w2) =
           EvMultiSocketAction CURL_SOCKET_TIMEOUT 0 ::
           flat_map completion_events (messages (g_Curl w1)) ++
           [EvMultiInfoRead None] ∧
         messages (g_Curl w2) = []).
Proof.
  intros Hrange. unfold CurlTimeoutCallback.
  destruct (bool_decide (timeout_ms = (-1)%Z)) eqn:Hstop.
  - eexists. split; [reflexivity|].
    split; [by destruct w|]. split; [done|].
    apply events_since_app. reflexivity.
  - apply bool_decide_eq_false in Hstop.
    assert (to_uint64 timeout_ms = timeout_ms) as Hexact.
    { unfold to_uint64, LONG_MAX in *. apply Z.mod_small. lia. }
    eexists. split; [reflexivity|]. rewrite Hexact.
    split; [by destruct w|]. split; [done|].
    split; [apply events_since_app; reflexivity|].
    match goal with
    | |- ∃ _ _, _ _ _ (set_g_Timeout None ?w') = _ ∧ _ =>
        destruct (PerformRequests_spec (set_g_Timeout None w'))
          as (w1 & w2 & E1 & F1 & E2 & D2 & E)
    end.
    exists w1, w2. split; [exact E1|]. split; [exact E2|].
    split.
    { apply exec_Some. exists tt. rewrite step_ReactorTimer. exact E. }
    destruct F1 as [_ _ _ _ _ _ _ _ (e1 & T1 & O1)].
    destruct D2 as [Dm _ _ _ _ (e2 & T2 & O2)].
    split; [|exact Dm].
    erewrite events_since_app.
    2:{ rewrite T2, T1. simpl. rewrite <- !app_assoc. reflexivity. }
    change (?e :: e1) with ([e] ++ e1).
    rewrite !own_events_app, O1, O2. reflexivity.
Qed.

(** ** Invariants along a computation *)

#[local] Instance preserves_refl (I : World → Prop) (ok : Event → Prop) :
  Reflexive (preserves I ok).
Proof. intros w Hw. split; [done|]. exists []. by rewrite app_nil_r. Qed.

#[local] Instance preserves_trans (I : World → Prop) (ok : Event → Prop) :
  Transitive (preserves I ok).
Proof.
  intros w1 w2 w3 H12 H23 H1.
  destruct (H12 H1) as (H2 & e1 & T1 & O1).
  destruct (H23 H2) as (H3 & e2 & T2 & O2).
  split; [done|]. exists (e1 ++ e2). split.
  - by rewrite T2, T1, app_assoc.
  - by apply Forall_app.
Qed.

Lemma respects_emit (I : World → Prop) (ok : Event → Prop) (e : Event) :
  (∀ w t, I w → I (set_trace t w)) → ok e → respects (preserves I ok) (emit e).
Proof.
  intros Htrace He w a w' [= _ <-] Hw. split; [by apply Htrace|].
  exists [e]. split; [done|]. by constructor.
Qed.

Lemma respects_modify (I : World → Prop) (ok : Event → Prop) (f : World → World) :
  (∀ w, I w → I (f w)) → (∀ w, trace (f w) = trace w) →
  respects (preserves I ok) (modify f).
Proof.
  intros Hf Ht w a w' [= _ <-] Hw. split; [by apply Hf|].
  exists []. by rewrite app_nil_r, Ht.
Qed.

Lemma returns_respects {A} (R : World → World → Prop) (m : M A) :
  returns R m → respects R m.
Proof.
  intros Hm w a w' E. destruct (Hm w) as (a' & w'' & E' & HR). congruence.
Qed.

Lemma respects_weaken {A} (R R' : World → World → Prop) (m : M A) :
  (∀ w w', R w w' → R' w w') → respects R m → respects R' m.
Proof. intros HR Hm w a w' E. eapply HR, Hm, E. Qed.

(** *** Walking through a computation *)

Ltac unfold_invariant :=
  unfold watching, no_socket_request, no_wake_pending, always, settled,
    reactor_owned, host_owned, no_watch_event, no_admission_event,
    not_wake_event, bystander_event, any_event, reactor_event in *.

Ltac destruct_handles :=
  repeat match goal with
         | q : QueueId |- _ => destruct q
         | h : AsyncHandle |- _ => destruct h
         end.

Ltac unfold_primitives :=
  unfold Lock, Unlock, Empty, Push, Pop, uv_timer_stop, uv_timer_start,
    uv_async_send, uv_stop, curl_multi_info_read, curl_multi_cleanup,
    curl_global_cleanup, AddFrameAction, delete_context, OnCompleted,
    call_InitCurl, curl_easy_getinfo_PRIVATE.

Ltac preserve_step :=
  lazymatch goal with
  | |- respects ?R (@mbind _ _ _ _ ?f ?m) =>
      apply (respects_bind R m f); [|intros ?; cbv beta zeta]
  | |- respects _ (mret _) => apply respects_ret; apply _
  | |- respects _ (get _) => apply respects_get; apply _
  | |- respects _ fail => apply respects_fail
  | |- respects _ (emit _) =>
      apply respects_emit;
        [ intros ? ?; unfold_invariant; simpl; done
        | unfold_invariant; done ]
  | |- respects _ (modify _) =>
      apply respects_modify;
        [ intros ?; unfold_invariant; destruct_handles; simpl; done
        | intros ?; destruct_handles; reflexivity ]
  | |- respects _ (match ?x with _ => _ end) => destruct x eqn:?
  | |- respects _ _ =>
      first
        [ assumption
        | match goal with H : ∀ _, respects _ _ |- _ => apply H end
        | match goal with H : ∀ _ _, respects _ _ |- _ => apply H end
        | match goal with H : ∀ _ _ _, respects _ _ |- _ => apply H end ]
  end.

Ltac preserve := unfold_primitives; repeat preserve_step.

(** ** No Socket Watch Context comes or goes without a socket request *)

Section Watching.

Variable W : gmap nat CurlContext.

Lemma CurlTimeoutCallback_watching (timeout_ms : Z) :
  respects (preserves (watching W) no_watch_event) (CurlTimeoutCallback timeout_ms).
Proof. unfold CurlTimeoutCallback. preserve. Qed.

Lemma multi_callbacks_watching (rs : list CurlRequest) :
  Forall (λ r, socket_request r = false) rs →
  respects (preserves (watching W) no_watch_event) (multi_callbacks rs).
Proof.
  induction 1 as [|r rs Hr _ IH]; simpl; [preserve|].
  apply respects_bind; [apply _| |intros; exact IH].
  destruct r; [done|]. simpl.
  apply respects_bind; [apply _| |intros; preserve].
  apply CurlTimeoutCallback_watching.
Qed.

Lemma multi_reenter_watching :
  respects (preserves (watching W) no_watch_event) multi_reenter.
Proof.
  intros w a w' E [Htape HW]. unfold multi_reenter in E.
  erewrite bind_run in E by reflexivity.
  destruct (callback_tape w) as [|rs rest] eqn:Ht.
  - injection E as _ <-. by apply preserves_refl.
  - erewrite bind_run in E by reflexivity.
    unfold no_socket_request in Htape. rewrite Ht in Htape.
    apply Forall_cons in Htape as [Hrs Hrest].
    exact (multi_callbacks_watching rs Hrs _ _ _ E (conj Hrest HW)).
Qed.

Lemma curl_multi_add_handle_watching (h : CURL) :
  respects (preserves (watching W) no_watch_event) (curl_multi_add_handle h).
Proof. pose proof multi_reenter_watching. unfold curl_multi_add_handle. preserve. Qed.

Lemma curl_multi_remove_handle_watching (h : CURL) :
  respects (preserves (watching W) no_watch_event) (curl_multi_remove_handle h).
Proof. pose proof multi_reenter_watching. unfold curl_multi_remove_handle. preserve. Qed.

Lemma curl_multi_socket_action_watching (s : curl_socket_t) (flags : Z) :
  respects (preserves (watching W) no_watch_event) (curl_multi_socket_action s flags).
Proof. pose proof multi_reenter_watching. unfold curl_multi_socket_action. preserve. Qed.

Lemma CheckCompletedRequests_watching :
  respects (preserves (watching W) no_watch_event) CheckCompletedRequests.
Proof.
  unfold CheckCompletedRequests.
  apply respects_bind; [apply _|preserve|intros fuel].
  induction fuel as [|fuel IH]; [apply respects_fail|].
  rewrite CheckCompletedRequests_loop_S.
  pose proof curl_multi_remove_handle_watching.
  preserve.
Qed.

Lemma PerformRequests_watching :
  respects (preserves (watching W) no_watch_event) PerformRequests.
Proof.
  pose proof curl_multi_socket_action_watching.
  pose proof CheckCompletedRequests_watching.
  unfold PerformRequests. preserve.
Qed.

Lemma CurlSocketActivity_watching (handle : CurlContextPtr) (status events : Z) :
  respects (preserves (watching W) no_watch_event)
    (CurlSocketActivity handle status events).
Proof.
  pose proof curl_multi_socket_action_watching.
  pose proof CheckCompletedRequests_watching.
  unfold CurlSocketActivity. preserve.
Qed.

Lemma AsyncPerformRequests_watching :
  respects (preserves (watching W) no_watch_event) AsyncPerformRequests.
Proof.
  unfold AsyncPerformRequests.
  apply respects_bind; [apply _|preserve|intros _].
  apply respects_bind; [apply _|preserve|intros fuel].
  apply respects_bind; [apply _| |intros; preserve].
  generalize 0%Z.
  induction fuel as [|fuel IH]; intros count; [apply respects_fail|].
  rewrite AsyncPerformRequests_loop_S.
  pose proof curl_multi_add_handle_watching.
  preserve.
Qed.

Lemma step_watching (a : Action) :
  respects (preserves (watching W) no_watch_event) (step a).
Proof.
  pose proof AsyncPerformRequests_watching.
  pose proof PerformRequests_watching.
  pose proof CurlSocketActivity_watching.
  destruct a; unfold step;
    unfold AddRequestToQueue, FrameHook, run_frame_action, SDK_OnUnload,
      LogMessage, LogError, Defer, log_msg, log_err, execute_cb,
      uv_thread_join, AsyncStopLoop;
    preserve.
Qed.

End Watching.

Lemma CurlSocketCallback_served (easy : CURL) (s : curl_socket_t) (action : Z)
    (socketdata : option CurlContextPtr) (w : World) :
  ∃ w', CurlSocketCallback easy s action socketdata w = Some (0%Z, w') ∧
        socket_request_served s action socketdata w w'.
Proof.
  unfold CurlSocketCallback, socket_request_served, register_or_update,
    requested_interest.
  assert (∀ t a b c : list Event, ((t ++ a) ++ b) ++ c = t ++ a ++ b ++ c)
    as Happ by (intros; by rewrite <- !app_assoc).
  destruct (bool_decide (action = CURL_POLL_IN)) eqn:Hin;
    [apply bool_decide_eq_true in Hin; subst action|
     destruct (bool_decide (action = CURL_POLL_OUT)) eqn:Hout;
     [apply bool_decide_eq_true in Hout; subst action|
      destruct (bool_decide (action = CURL_POLL_INOUT)) eqn:Hio;
      [apply bool_decide_eq_true in Hio; subst action|
       destruct (bool_decide (action = CURL_POLL_REMOVE)) eqn:Hrm;
       [apply bool_decide_eq_true in Hrm; subst action|]]]];
    destruct socketdata as [p|];
    (eexists; split; [reflexivity|]); cbn [orb]; try (by destruct w);
    simpl;
    repeat match goal with
           | |- _ ∧ _ => split
           | |- _ !! _ = None => apply not_elem_of_dom, is_fresh
           | |- alter _ _ (<[_:=_]> _) = _ => by rewrite alter_insert_eq
           | |- events_since _ _ = _ =>
               apply events_since_app; simpl;
               rewrite <- ?app_assoc; reflexivity
           | |- _ => reflexivity
           end.
Qed.

(** C8.  A poll-in, poll-out or poll-inout request creates a Socket Watch
    Context when the socket has none and starts polling with the interest
    asked for; a remove request for a socket with a context stops polling,
    destroys the context and clears the socket's pointer; any other request
    changes nothing.  As long as libcurl asks for no socket, no action of
    either thread creates, destroys or changes a Socket Watch Context. *)
Theorem socket_watch_contexts_follow_requests :
  (∀ (easy : CURL) (s : curl_socket_t) (action : Z)
     (socketdata : option CurlContextPtr) (w : World),
     ∃ w', CurlSocketCallback easy s action socketdata w = Some (0%Z, w') ∧
           socket_request_served s action socketdata w w') ∧
  (∀ (a : Action) (w w' : World),
     exec (step a) w = Some w' →
     no_socket_request w →
     watch_contexts w' = watch_contexts w ∧
     Forall (λ e, watch_event e = false) (events_since w w')).
Proof.
  split; [apply CurlSocketCallback_served|].
  intros a w w' [u E]%exec_Some Htape.
  destruct (step_watching (watch_contexts w) a w u w' E) as ([_ HW] & evs & T & O);
    [by split|].
  split; [exact HW|]. by rewrite (events_since_app _ _ _ T).
Qed.

(** ** The per-tick hook *)

Lemma FrameHook_spec (w : World) :
  ∃ w', FrameHook w = Some (tt, w') ∧ tick w w'.
Proof.
  unfold FrameHook, tick_events.
  erewrite bind_run by apply Empty_run.
  change (queue RequestQueue w) with (g_RequestQueue w).
  destruct (items (g_RequestQueue w)) as [|r rq] eqn:Hr.
  - rewrite bool_decide_eq_true_2 by done. cbn [negb].
    erewrite bind_run by reflexivity.
    erewrite bind_run by apply Empty_run.
    cbn [queue g_CompletedRequestQueue set_trace].
    destruct (items (g_CompletedRequestQueue w)) as [|c cq] eqn:Hc.
    + rewrite bool_decide_eq_true_2 by done. cbn [negb].
      eexists. split; [reflexivity|].
      split; cbn; unfold tick_events; rewrite ?Hr, ?Hc, ?orb_false_r, <- ?app_assoc; done.
    + rewrite bool_decide_eq_false_2 by done. cbn [negb].
      erewrite bind_run by reflexivity.
      erewrite bind_run by (apply Pop_run; cbn; apply Hc).
      eexists. split; [reflexivity|].
      split; cbn; unfold tick_events; rewrite ?Hr, ?Hc, ?orb_false_r, <- ?app_assoc; done.
  - rewrite bool_decide_eq_false_2 by done. cbn [negb].
    erewrite bind_run by reflexivity.
    erewrite bind_run by apply Empty_run.
    cbn [queue g_CompletedRequestQueue set_trace set_g_AsyncPerformRequests].
    destruct (items (g_CompletedRequestQueue w)) as [|c cq] eqn:Hc.
    + rewrite bool_decide_eq_true_2 by done. cbn [negb].
      eexists. split; [reflexivity|].
      split; cbn; unfold tick_events; rewrite ?Hr, ?Hc, ?orb_true_r, <- ?app_assoc; done.
    + rewrite bool_decide_eq_false_2 by done. cbn [negb].
      erewrite bind_run by reflexivity.
      erewrite bind_run by (apply Pop_run; cbn; apply Hc).
      eexists. split; [reflexivity|].
      split; cbn; unfold tick_events; rewrite ?Hr, ?Hc, ?orb_true_r, <- ?app_assoc; done.
Qed.

Lemma run_cons (a : Action) (l : list Action) (w w1 : World) :
  step a w = Some (tt, w1) → run (a :: l) w = run l w1.
Proof. intros E. simpl. by erewrite bind_run by exact E. Qed.

Lemma completed_in_tick (w : World) :
  completed_in (tick_events w) = take 1 (items (g_CompletedRequestQueue w)).
Proof.
  unfold tick_events.
  destruct (bool_decide (items (g_RequestQueue w) = []));
    by destruct (items (g_CompletedRequestQueue w)).
Qed.

Lemma destroyed_in_tick (w : World) :
  destroyed_in (tick_events w) = take 1 (items (g_CompletedRequestQueue w)).
Proof.
  unfold tick_events.
  destruct (bool_decide (items (g_RequestQueue w) = []));
    by destruct (items (g_CompletedRequestQueue w)).
Qed.

Lemma ticks_spec (n : nat) :
  ∀ w : World,
    ∃ w' evs,
      run (ticks n) w = Some (tt, w') ∧
      trace w' = trace w ++ evs ∧
      completed_in evs = take n (items (g_CompletedRequestQueue w)) ∧
      destroyed_in evs = take n (items (g_CompletedRequestQueue w)) ∧
      items (g_CompletedRequestQueue w') =
        drop n (items (g_CompletedRequestQueue w)).
Proof.
  induction n as [|n IH]; intros w.
  - exists w, []. rewrite app_nil_r. by rewrite drop_0.
  - destruct (FrameHook_spec w) as (w1 & E1 & T1).
    destruct (IH w1) as (w' & evs & E & T & C & D & Q).
    exists w', (tick_events w ++ evs).
    split; [unfold ticks; simpl replicate; by rewrite (run_cons HostTick _ w w1 E1)|].
    destruct T1 as [Tt _ Tc _ _ _ _ _ _ _ _ _].
    rewrite Tc in C, D, Q.
    split; [by rewrite T, Tt, app_assoc|].
    unfold completed_in, destroyed_in in *.
    rewrite !omap_app. fold (completed_in (tick_events w)).
    fold (destroyed_in (tick_events w)).
    rewrite completed_in_tick, destroyed_in_tick, C, D, Q.
    destruct (items (g_CompletedRequestQueue w)) as [|c l]; simpl.
    + by rewrite !take_nil, drop_nil.
    + by rewrite !drop_0.
Qed.

(** C3.  One tick calls at most one [OnCompleted()]: when the completed
    queue is not empty it pops the head, calls its [OnCompleted()], then
    deletes it.  [n] ticks in a row complete the first [n] contexts of the
    queue in queue order, so as many ticks as the queue is long empty it. *)
Theorem tick_completes_at_most_one (w : World) :
  (∃ w',
     exec FrameHook w = Some w' ∧
     events_since w w' = tick_events w ∧
     completed_in (events_since w w') = take 1 (items (g_CompletedRequestQueue w)) ∧
     length (completed_in (events_since w w')) ≤ 1 ∧
     items (g_CompletedRequestQueue w') =
       drop 1 (items (g_CompletedRequestQueue w))) ∧
  (∀ n, ∃ w',
     exec (run (ticks n)) w = Some w' ∧
     completed_in (events_since w w') = take n (items (g_CompletedRequestQueue w)) ∧
     destroyed_in (events_since w w') = take n (items (g_CompletedRequestQueue w)) ∧
     items (g_CompletedRequestQueue w') =
       drop n (items (g_CompletedRequestQueue w))) ∧
  (∃ w',
     exec (run (ticks (length (items (g_CompletedRequestQueue w))))) w = Some w' ∧
     completed_in (events_since w w') = items (g_CompletedRequestQueue w) ∧
     items (g_CompletedRequestQueue w') = []).
Proof.
  split; [|split].
  - destruct (FrameHook_spec w) as (w' & E & T).
    exists w'. destruct T as [Tt _ Tc _ _ _ _ _ _ _ _ _].
    rewrite (events_since_app _ _ _ Tt), completed_in_tick.
    split; [apply exec_Some; eauto|]. repeat split; try done.
    rewrite length_take. lia.
  - intros n. destruct (ticks_spec n w) as (w' & evs & E & T & C & D & Q).
    exists w'. rewrite (events_since_app _ _ _ T).
    split; [apply exec_Some; eauto|]. done.
  - destruct (ticks_spec (length (items (g_CompletedRequestQueue w))) w)
      as (w' & evs & E & T & C & D & Q).
    exists w'. rewrite (events_since_app _ _ _ T).
    split; [apply exec_Some; eauto|].
    by rewrite C, Q, firstn_all, drop_all.
Qed.

(** ** Lock scoping *)



Lemma with_lock_same (held : QueueId → bool) (q : QueueId) (b : bool) :
  held q = b → ∀ q', with_lock held q b q' = held q'.
Proof.
  intros H q'. unfold with_lock. case_bool_decide; [by subst|done].
Qed.









Lemma AddRequestToQueue_spec (c : IHTTPContext) (w : World) :
  ∃ w', AddRequestToQueue c w = Some (tt, w') ∧
        items (g_RequestQueue w') = items (g_RequestQueue w) ++ [c] ∧
        locked (g_RequestQueue w') = false ∧
        events_since w w' =
          [EvLock RequestQueue; EvPush RequestQueue c; EvUnlock RequestQueue] ∧
        set_trace (trace w) (set_g_RequestQueue (g_RequestQueue w) w') = w.
Proof.
  eexists. split; [reflexivity|]. simpl.
  repeat split.
  - apply events_since_app. simpl. by rewrite <- !app_assoc.
  - by destruct w.
Qed.

(** C4, on the code.  [FrameHook] checks both queues for emptiness before it
    takes any lock, so its accesses are not all under the lock, whatever the
    state; its pop is under the lock, and is not preceded by a second
    emptiness check. *)
Theorem FrameHook_checks_emptiness_without_the_lock (w : World) :
  ∃ w',
    exec FrameHook w = Some w' ∧
    hd_error (events_since w w') =
      Some (EvEmpty RequestQueue (bool_decide (items (g_RequestQueue w) = []))) ∧
    under_lock queue_access no_lock (events_since w w') = false ∧
    under_lock queue_mutation no_lock (events_since w w') = true ∧
    pops_rechecked no_lock (events_since w w') =
      bool_decide (items (g_CompletedRequestQueue w) = []).
Proof.
  destruct (FrameHook_spec w) as (w' & E & T).
  exists w'. destruct T as [Tt _ _ _ _ _ _ _ _ _ _ _].
  rewrite (events_since_app _ _ _ Tt).
  split; [apply exec_Some; eauto|].
  unfold tick_events.
  destruct (items (g_RequestQueue w)), (items (g_CompletedRequestQueue w));
    done.
Qed.

(** ** Unload and the relay to the host thread *)

Lemma SDK_OnUnload_spec (w : World) :
  ∃ w', SDK_OnUnload w = Some (tt, w') ∧
        unloaded w' = true ∧
        g_AsyncStopLoop w' = false ∧
        events_since w w' = unload_events ∧
        set_trace (trace w)
          (set_unloaded (unloaded w)
             (set_g_AsyncStopLoop (g_AsyncStopLoop w) w')) = w.
Proof.
  eexists. split; [reflexivity|]. simpl. repeat split.
  - apply events_since_app. simpl. by rewrite <- !app_assoc.
  - by destruct w.
Qed.

Lemma log_msg_spec (text : string) (w : World) :
  ∃ w', log_msg text w = Some (tt, w') ∧
        events_since w w' =
          (if unloaded w then [] else [EvLogMessage text]) ++ [EvFree text] ∧
        set_trace (trace w) w' = w.
Proof.
  unfold log_msg. erewrite bind_run by reflexivity.
  destruct (unloaded w) eqn:U; (eexists; split; [reflexivity|]); simpl; split;
    try (apply events_since_app; simpl; by rewrite <- ?app_assoc);
    by destruct w.
Qed.

Lemma log_err_spec (text : string) (w : World) :
  ∃ w', log_err text w = Some (tt, w') ∧
        events_since w w' =
          (if unloaded w then [] else [EvLogError text]) ++ [EvFree text] ∧
        set_trace (trace w) w' = w.
Proof.
  unfold log_err. erewrite bind_run by reflexivity.
  destruct (unloaded w) eqn:U; (eexists; split; [reflexivity|]); simpl; split;
    try (apply events_since_app; simpl; by rewrite <- ?app_assoc);
    by destruct w.
Qed.

Lemma execute_cb_spec (cb : nat) (w : World) :
  ∃ w', execute_cb cb w = Some (tt, w') ∧
        events_since w w' = [EvInvoke cb; EvRelease cb] ∧
        set_trace (trace w) w' = w.
Proof.
  eexists. split; [reflexivity|]. simpl. split.
  - apply events_since_app. simpl. by rewrite <- ?app_assoc.
  - by destruct w.
Qed.

(** C7, on the code.  [SDK_OnUnload] makes its calls in the order of
    [unload_events] and sets the torn-down flag.  After it, [log_msg] and
    [log_err] free the message without logging it, but [execute_cb] still
    invokes the deferred callback. *)
Theorem deferred_callback_runs_after_unload (w : World) (text : string) (cb : nat) :
  ∃ w1 w2 w3 w4,
    exec SDK_OnUnload w = Some w1 ∧
    unloaded w1 = true ∧
    events_since w w1 = unload_events ∧
    exec (log_msg text) w1 = Some w2 ∧
    events_since w1 w2 = [EvFree text] ∧
    exec (log_err text) w1 = Some w3 ∧
    events_since w1 w3 = [EvFree text] ∧
    exec (execute_cb cb) w1 = Some w4 ∧
    events_since w1 w4 = [EvInvoke cb; EvRelease cb].
Proof.
  destruct (SDK_OnUnload_spec w) as (w1 & E1 & U & _ & T1 & _).
  destruct (log_msg_spec text w1) as (w2 & E2 & T2 & _).
  destruct (log_err_spec text w1) as (w3 & E3 & T3 & _).
  destruct (execute_cb_spec cb w1) as (w4 & E4 & T4 & _).
  rewrite U in T2, T3.
  exists w1, w2, w3, w4.
  repeat split; try done; apply exec_Some; eauto.
Qed.

(** ** Wakes and admissions *)

Lemma own_events_nil (evs : list Event) :
  own_events evs = [] → Forall (λ e, callback_event e = true) evs.
Proof.
  induction evs as [|e evs IH]; [constructor|].
  unfold own_events in *. destruct (callback_event e) eqn:E.
  - rewrite filter_cons_False by (rewrite E; auto). intros H.
    constructor; auto.
  - by rewrite filter_cons_True by (by rewrite E).
Qed.

Lemma callback_frame_preserves (I : World → Prop) (ok : Event → Prop) :
  (∀ w w', callback_frame w w' → I w → I w') →
  (∀ e, callback_event e = true → ok e) →
  ∀ w w', callback_frame w w' → preserves I ok w w'.
Proof.
  intros HI Hok w w' F Hw. split; [by eapply HI|].
  destruct (cf_trace _ _ F) as (evs & T & O). exists evs. split; [done|].
  eapply Forall_impl; [by apply own_events_nil|]. exact Hok.
Qed.

Lemma multi_reenter_sends_no_wake :
  respects (preserves always not_wake_event) multi_reenter.
Proof.
  eapply respects_weaken; [|apply returns_respects, multi_reenter_frame].
  apply callback_frame_preserves; [done|]. by intros [].
Qed.

Lemma multi_reenter_admits_nothing :
  respects (preserves no_wake_pending no_admission_event) multi_reenter.
Proof.
  eapply respects_weaken; [|apply returns_respects, multi_reenter_frame].
  apply callback_frame_preserves.
  - intros w w' F. unfold no_wake_pending. by rewrite (cf_wake _ _ F).
  - by intros [].
Qed.

Lemma CheckCompletedRequests_sends_no_wake :
  respects (preserves always not_wake_event) CheckCompletedRequests.
Proof.
  pose proof multi_reenter_sends_no_wake.
  unfold CheckCompletedRequests.
  apply respects_bind; [apply _|preserve|intros fuel].
  induction fuel as [|fuel IH]; [apply respects_fail|].
  rewrite CheckCompletedRequests_loop_S. unfold curl_multi_remove_handle.
  preserve.
Qed.

Lemma CheckCompletedRequests_admits_nothing :
  respects (preserves no_wake_pending no_admission_event) CheckCompletedRequests.
Proof.
  pose proof multi_reenter_admits_nothing.
  unfold CheckCompletedRequests.
  apply respects_bind; [apply _|preserve|intros fuel].
  induction fuel as [|fuel IH]; [apply respects_fail|].
  rewrite CheckCompletedRequests_loop_S. unfold curl_multi_remove_handle.
  preserve.
Qed.

Lemma AsyncPerformRequests_sends_no_wake :
  respects (preserves always not_wake_event) AsyncPerformRequests.
Proof.
  pose proof multi_reenter_sends_no_wake.
  unfold AsyncPerformRequests.
  apply respects_bind; [apply _|preserve|intros _].
  apply respects_bind; [apply _|preserve|intros fuel].
  apply respects_bind; [apply _| |intros; preserve].
  generalize 0%Z.
  induction fuel as [|fuel IH]; intros count; [apply respects_fail|].
  rewrite AsyncPerformRequests_loop_S. unfold curl_multi_add_handle.
  preserve.
Qed.

(** Only the per-tick hook sends the wake of the admission drain. *)
Lemma step_sends_no_wake (a : Action) :
  a ≠ HostTick → respects (preserves always not_wake_event) (step a).
Proof.
  pose proof multi_reenter_sends_no_wake.
  pose proof CheckCompletedRequests_sends_no_wake.
  pose proof AsyncPerformRequests_sends_no_wake.
  intros Ha. destruct a; [|done|..]; unfold step;
    unfold AddRequestToQueue, run_frame_action, SDK_OnUnload,
      LogMessage, LogError, Defer, log_msg, log_err, execute_cb,
      uv_thread_join, AsyncStopLoop, PerformRequests, CurlSocketActivity,
      curl_multi_socket_action;
    preserve.
Qed.

(** With no wake outstanding, nothing but a tick leads to an admission. *)
Lemma step_admits_nothing (a : Action) :
  a ≠ HostTick →
  respects (preserves no_wake_pending no_admission_event) (step a).
Proof.
  pose proof multi_reenter_admits_nothing.
  pose proof CheckCompletedRequests_admits_nothing.
  intros Ha. destruct a; [|done|..].
  7:{ intros w u w' E Hw. rewrite step_ReactorWake, Hw in E.
      injection E as _ <-.
      by apply (preserves_refl no_wake_pending no_admission_event w). }
  all: unfold step;
    unfold AddRequestToQueue, run_frame_action, SDK_OnUnload,
      LogMessage, LogError, Defer, log_msg, log_err, execute_cb,
      uv_thread_join, AsyncStopLoop, PerformRequests, CurlSocketActivity,
      curl_multi_socket_action;
    preserve.
Qed.

Lemma run_admits_nothing (l : list Action) :
  HostTick ∉ l →
  respects (preserves no_wake_pending no_admission_event) (run l).
Proof.
  induction l as [|a l IH]; intros Hl; simpl.
  - apply respects_ret, _.
  - apply not_elem_of_cons in Hl as [Ha Hl].
    apply respects_bind; [apply _| |intros _; by apply IH].
    apply step_admits_nothing. congruence.
Qed.

Lemma admitted_in_no_admission (evs : list Event) :
  Forall no_admission_event evs → admitted_in evs = [].
Proof.
  induction 1 as [|e evs He _ IH]; [done|].
  destruct e; try exact IH. destruct He.
Qed.

Lemma wake_in_tick_events (w : World) :
  EvAsyncSend PerformRequestsWake ∈ tick_events w →
  items (g_RequestQueue w) ≠ [].
Proof.
  unfold tick_events. intros H Hempty. rewrite Hempty in H. simpl in H.
  destruct (items (g_CompletedRequestQueue w));
    repeat (apply elem_of_cons in H as [H|H]; [discriminate|]);
    by apply elem_of_nil in H.
Qed.

Lemma AddRequestToQueue_trace (c : IHTTPContext) (w w1 : World) :
  AddRequestToQueue c w = Some (tt, w1) →
  trace w1 =
    trace w ++ [EvLock RequestQueue; EvPush RequestQueue c; EvUnlock RequestQueue] ∧
  g_AsyncPerformRequests w1 = g_AsyncPerformRequests w.
Proof.
  intros [= <-]. simpl. by rewrite <- !app_assoc.
Qed.

(** C10, as the code has it.  [AddRequestToQueue] locks, pushes and
    unlocks; it changes nothing but the pending queue and sends no wake.
    Only a tick that finds the pending queue non-empty sends the wake.  From
    a state with no wake outstanding, no sequence of actions without a tick
    admits anything; so a context submitted while no wake is outstanding is
    not admitted before the next tick runs. *)
Theorem admission_needs_a_wake_from_a_tick :
  (∀ (c : IHTTPContext) (w : World),
     ∃ w', AddRequestToQueue c w = Some (tt, w') ∧
           items (g_RequestQueue w') = items (g_RequestQueue w) ++ [c] ∧
           events_since w w' =
             [EvLock RequestQueue; EvPush RequestQueue c; EvUnlock RequestQueue] ∧
           set_trace (trace w) (set_g_RequestQueue (g_RequestQueue w) w') = w) ∧
  (∀ (a : Action) (w w' : World),
     exec (step a) w = Some w' →
     EvAsyncSend PerformRequestsWake ∈ events_since w w' →
     a = HostTick ∧ items (g_RequestQueue w) ≠ []) ∧
  (∀ (l : list Action) (w w' : World),
     HostTick ∉ l →
     g_AsyncPerformRequests w = false →
     exec (run l) w = Some w' →
     admitted_in (events_since w w') = [] ∧
     g_AsyncPerformRequests w' = false) ∧
  (∀ (c : IHTTPContext) (l : list Action) (w w1 w' : World),
     g_AsyncPerformRequests w = false →
     AddRequestToQueue c w = Some (tt, w1) →
     HostTick ∉ l →
     exec (run l) w1 = Some w' →
     admitted_in (events_since w w') = []).
Proof.
  split; [|split; [|split]].
  - intros c w. destruct (AddRequestToQueue_spec c w) as (w' & E & Q & _ & T & F).
    by exists w'.
  - intros a w w' [u E]%exec_Some Hwake.
    destruct (decide (a = HostTick)) as [->|Ha].
    + split; [done|].
      destruct (FrameHook_spec w) as (w1 & E1 & T1).
      assert (w1 = w') as -> by (simpl in E; congruence).
      rewrite (events_since_app _ _ _ (tick_trace _ _ T1)) in Hwake.
      by apply wake_in_tick_events.
    + destruct (step_sends_no_wake a Ha w u w' E) as (_ & evs & T & O); [done|].
      rewrite (events_since_app _ _ _ T) in Hwake.
      rewrite Forall_forall in O. by destruct (O _ Hwake).
  - intros l w w' Hl Hw [u E]%exec_Some.
    destruct (run_admits_nothing l Hl w u w' E Hw) as (Hw' & evs & T & O).
    rewrite (events_since_app _ _ _ T).
    split; [by apply admitted_in_no_admission|exact Hw'].
  - intros c l w w1 w' Hw [T1 F1]%AddRequestToQueue_trace Hl [u E]%exec_Some.
    destruct (run_admits_nothing l Hl w1 u w' E) as (_ & evs & T & O);
      [unfold no_wake_pending; congruence|].
    erewrite events_since_app by (rewrite T, T1, <- app_assoc; reflexivity).
    unfold admitted_in. rewrite omap_app.
    fold (admitted_in evs). by rewrite (admitted_in_no_admission evs O).
Qed.

(** ** Where contexts and handles come from *)



Lemma reported_app_l (e1 e2 : list Event) (c : IHTTPContext) :
  reported e1 c → reported (e1 ++ e2) c.
Proof.
  intros (m & Hm & ->). exists m. split; [|done].
  unfold read_in. rewrite omap_app. apply elem_of_app. by left.
Qed.

Lemma reported_app_r (e1 e2 : list Event) (c : IHTTPContext) :
  reported e2 c → reported (e1 ++ e2) c.
Proof.
  intros (m & Hm & ->). exists m. split; [|done].
  unfold read_in. rewrite omap_app. apply elem_of_app. by right.
Qed.

#[local] Instance accounted_refl : Reflexive accounted.
Proof.
  intros w. exists []. rewrite app_nil_r.
  split; [done|]. split; [constructor|]. split; [constructor|].
  split; [by auto|]. split; [|by auto].
  intros c Hc. inversion Hc.
Qed.

#[local] Instance accounted_trans : Transitive accounted.
Proof.
  intros w1 w2 w3 (e1 & T1 & A1 & P1 & Q1 & C1 & H1)
    (e2 & T2 & A2 & P2 & Q2 & C2 & H2).
  exists (e1 ++ e2).
  unfold admitted_in, pushed_in, completed_in in *.
  rewrite !omap_app.
  split; [by rewrite T2, T1, app_assoc|].
  split; [by apply Forall_app|].
  split.
  { apply Forall_app. split.
    - eapply Forall_impl; [exact P1|]. intros c. apply reported_app_l.
    - eapply Forall_impl; [exact P2|]. intros c. apply reported_app_r. }
  split.
  { intros c Hc. rewrite elem_of_app.
    destruct (Q2 c Hc) as [Hc2|Hc2]; [|by auto].
    destruct (Q1 c Hc2); auto. }
  split.
  { intros c [Hc|Hc]%elem_of_app; rewrite elem_of_app.
    - destruct (C1 c Hc); auto.
    - destruct (C2 c Hc) as [Hc2|Hc2]; [|by auto].
      destruct (Q1 c Hc2); auto. }
  intros h Hh. rewrite elem_of_app.
  destruct (H2 h Hh) as [Hh2|Hh2]; [|by auto].
  destruct (H1 h Hh2); auto.
Qed.















(** ** Which thread touches what *)

Lemma step_reactor_owned (G : CURLM) (T : option (Z * Z))
    (W : gmap nat CurlContext) (K : list (list CurlRequest))
    (C : list (list CURLMsg)) (a : Action) :
  reactor_action a = false →
  respects (preserves (reactor_owned G T W K C) any_event) (step a).
Proof.
  intros Ha. destruct a; try discriminate; unfold step;
    unfold AddRequestToQueue, FrameHook, run_frame_action, SDK_OnUnload,
      LogMessage, LogError, Defer, log_msg, log_err, execute_cb,
      uv_thread_join, AsyncStopLoop;
    preserve.
Qed.

(** X5.  Submitting, ticking, running a frame action, unloading and relaying
    a log line or a callback never change the multi handle, the shared
    timer or a Socket Watch Context: that state is the reactor's alone. *)
Theorem only_the_reactor_changes_its_state (a : Action) (w w' : World) :
  reactor_action a = false →
  exec (step a) w = Some w' →
  g_Curl w' = g_Curl w ∧
  g_Timeout w' = g_Timeout w ∧
  watch_contexts w' = watch_contexts w ∧
  callback_tape w' = callback_tape w ∧
  completion_tape w' = completion_tape w.
Proof.
  intros Ha [u E]%exec_Some.
  destruct (step_reactor_owned (g_Curl w) (g_Timeout w) (watch_contexts w)
              (callback_tape w) (completion_tape w) a Ha w u w' E)
    as ((HG & HT & HW & HK & HC) & _); [|done].
  repeat split; reflexivity.
Qed.

Lemma multi_reenter_host_owned (U : bool) (F : list FrameAction) :
  respects (preserves (host_owned U F) reactor_event) multi_reenter.
Proof.
  eapply respects_weaken; [|apply returns_respects, multi_reenter_frame].
  apply callback_frame_preserves.
  - intros w w' Fr [HU HF]. split.
    + by rewrite (cf_unloaded _ _ Fr).
    + by rewrite (cf_actions _ _ Fr).
  - by intros [].
Qed.

Lemma CheckCompletedRequests_host_owned (U : bool) (F : list FrameAction) :
  respects (preserves (host_owned U F) reactor_event) CheckCompletedRequests.
Proof.
  pose proof (multi_reenter_host_owned U F).
  unfold CheckCompletedRequests.
  apply respects_bind; [apply _|preserve|intros fuel].
  induction fuel as [|fuel IH]; [apply respects_fail|].
  rewrite CheckCompletedRequests_loop_S. unfold curl_multi_remove_handle.
  preserve.
Qed.

Lemma AsyncPerformRequests_host_owned (U : bool) (F : list FrameAction) :
  respects (preserves (host_owned U F) reactor_event) AsyncPerformRequests.
Proof.
  pose proof (multi_reenter_host_owned U F).
  unfold AsyncPerformRequests.
  apply respects_bind; [apply _|preserve|intros _].
  apply respects_bind; [apply _|preserve|intros fuel].
  apply respects_bind; [apply _| |intros; preserve].
  generalize 0%Z.
  induction fuel as [|fuel IH]; intros count; [apply respects_fail|].
  rewrite AsyncPerformRequests_loop_S. unfold curl_multi_add_handle.
  preserve.
Qed.

Lemma step_host_owned (U : bool) (F : list FrameAction) (a : Action) :
  reactor_action a = true →
  respects (preserves (host_owned U F) reactor_event) (step a).
Proof.
  pose proof (multi_reenter_host_owned U F).
  pose proof (CheckCompletedRequests_host_owned U F).
  pose proof (AsyncPerformRequests_host_owned U F).
  intros Ha. destruct a; try discriminate; unfold step;
    unfold PerformRequests, CurlSocketActivity, curl_multi_socket_action;
    preserve.
Qed.

(** X6.  The handlers of the reactor thread (admission wake, timer expiry,
    socket activity) call no [OnCompleted()], log nothing, run no deferred
    callback and free nothing of the host's; they leave the torn-down flag
    and the pending frame actions as they are. *)
Theorem reactor_never_calls_into_the_host (a : Action) (w w' : World) :
  reactor_action a = true →
  exec (step a) w = Some w' →
  unloaded w' = unloaded w ∧
  frame_actions w' = frame_actions w ∧
  Forall reactor_event (events_since w w') ∧
  completed_in (events_since w w') = [].
Proof.
  intros Ha [u E]%exec_Some.
  destruct (step_host_owned (unloaded w) (frame_actions w) a Ha w u w' E)
    as ((HU & HF) & evs & T & O); [split; reflexivity|].
  rewrite (events_since_app _ _ _ T).
  split; [done|]. split; [done|]. split; [done|].
  clear -O. induction O as [|e evs He _ IH]; [done|].
  destruct e; try exact IH. destruct He.
Qed.

(** ** Socket activity *)

(** X3.  On activity of a watched socket the handler tells libcurl the
    socket of the context and the readiness it saw: [CURL_CSELECT_IN] exactly
    when the event has [UV_READABLE], [CURL_CSELECT_OUT] exactly when it has
    [UV_WRITABLE], nothing else; then it drains the finished transfers. *)
Theorem socket_activity_passes_the_readiness_on (handle : CurlContextPtr)
    (status events : Z) (context : CurlContext) (w : World) :
  watch_contexts w !! handle = Some context →
  ∃ flags w1 w2,
    (Z.land flags CURL_CSELECT_IN ≠ 0 ↔ Z.land events UV_READABLE ≠ 0)%Z ∧
    (Z.land flags CURL_CSELECT_OUT ≠ 0 ↔ Z.land events UV_WRITABLE ≠ 0)%Z ∧
    (0 ≤ flags ≤ 3)%Z ∧
    curl_multi_socket_action (socket context) flags w = Some (tt, w1) ∧
    CheckCompletedRequests w1 = Some (tt, w2) ∧
    CurlSocketActivity handle status events w = Some (tt, w2) ∧
    hd_error (events_since w w2) =
      Some (EvMultiSocketAction (socket context) flags) ∧
    messages (g_Curl w2) = [].
Proof.
  intros Hctx. unfold CurlSocketActivity.
  erewrite bind_run by reflexivity. rewrite Hctx. cbv zeta.
  unfold UV_READABLE, UV_WRITABLE, CURL_CSELECT_IN, CURL_CSELECT_OUT.
  match goal with
  | |- context [curl_multi_socket_action _ ?f ≫= _] => set (flags := f)
  end.
  destruct (curl_multi_socket_action_spec (socket context) flags w)
    as (w1 & E1 & F1).
  destruct (CheckCompletedRequests_spec w1) as (w2 & E2 & D2).
  exists flags, w1, w2.
  assert ((Z.land flags 1 ≠ 0 ↔ Z.land events 1 ≠ 0)%Z ∧
          (Z.land flags 2 ≠ 0 ↔ Z.land events 2 ≠ 0)%Z ∧
          (0 ≤ flags ≤ 3)%Z) as (H1 & H2 & H3).
  { subst flags. repeat case_bool_decide; simpl; repeat split; try done; lia. }
  split; [exact H1|]. split; [exact H2|]. split; [exact H3|].
  split; [exact E1|]. split; [exact E2|].
  split; [by erewrite bind_run by exact E1|].
  destruct F1 as [_ _ _ _ _ _ _ _ (e1 & T1 & _)].
  destruct D2 as [Dm _ _ _ _ (e2 & T2 & _)].
  split; [|exact Dm].
  erewrite events_since_app
    by (rewrite T2, T1, <- app_assoc; simpl; reflexivity).
  reflexivity.
Qed.

(** ** The relay to the host thread *)

Lemma length_substring_0 (n : nat) :
  ∀ s : string, String.length (String.substring 0 n s) = Nat.min n (String.length s).
Proof.
  induction n as [|n IH]; intros s.
  - by destruct s.
  - destruct s as [|c s]; [done|]. simpl. by rewrite IH.
Qed.

Lemma substring_0_all (n : nat) :
  ∀ s : string, String.length s ≤ n → String.substring 0 n s = s.
Proof.
  induction n as [|n IH]; intros s Hs.
  - destruct s; [done|]. simpl in Hs. lia.
  - destruct s as [|c s]; [done|]. simpl in *. rewrite IH; [done|lia].
Qed.

Lemma relayed_action_runs (a : FrameAction) (w : World) :
  frame_actions w = [] →
  ∃ w', exec (AddFrameAction a;; run_frame_action) w = Some w' ∧
        events_since w w' =
          EvAddFrameAction a ::
          match a with
          | Act_log_msg text =>
              (if unloaded w then [] else [EvLogMessage text]) ++ [EvFree text]
          | Act_log_err text =>
              (if unloaded w then [] else [EvLogError text]) ++ [EvFree text]
          | Act_execute_cb cb => [EvInvoke cb; EvRelease cb]
          end ∧
        set_trace (trace w) w' = w.
Proof.
  intros Hnone. destruct w as [? ? ? ? ? ? ? ? ? ? ? ?]; simpl in Hnone; subst.
  destruct a as [text|text|cb];
    [destruct unloaded0|destruct unloaded0|];
    (eexists; split; [reflexivity|]); (split; [|reflexivity]);
    apply events_since_app; simpl; by rewrite <- ?app_assoc.
Qed.

Lemma run_two (a b : Action) (w : World) :
  exec (run [a; b]) w = exec (step a;; step b) w.
Proof.
  unfold exec. simpl. unfold mbind, M_bind.
  destruct (step a w) as [[[] w1]|]; [|done].
  by destruct (step b w1) as [[[] w2]|].
Qed.

(** X4.  A log line relayed with [LogMessage] or [LogError] holds the
    first 3071 characters of the formatted text, and so all of it when it is
    that short.  When the host then runs the frame action, the line is
    logged unless the extension is torn down, and the buffer is freed in
    both cases; nothing but the trace has changed afterwards. *)
Theorem relayed_log_line_is_truncated_and_freed (formatted : string) (w : World) :
  frame_actions w = [] →
  ∃ text,
    text = buffer_3072 formatted ∧
    String.length text = Nat.min 3071 (String.length formatted) ∧
    (String.length formatted ≤ 3071 → text = formatted) ∧
    (∃ w',
       exec (run [RelayLogMessage formatted; HostFrameAction]) w = Some w' ∧
       events_since w w' =
         EvAddFrameAction (Act_log_msg text) ::
         (if unloaded w then [] else [EvLogMessage text]) ++ [EvFree text] ∧
       set_trace (trace w) w' = w) ∧
    (∃ w',
       exec (run [RelayLogError formatted; HostFrameAction]) w = Some w' ∧
       events_since w w' =
         EvAddFrameAction (Act_log_err text) ::
         (if unloaded w then [] else [EvLogError text]) ++ [EvFree text] ∧
       set_trace (trace w) w' = w).
Proof.
  intros Hnone. exists (buffer_3072 formatted).
  split; [done|].
  split; [unfold buffer_3072; apply length_substring_0|].
  split; [intros Hs; unfold buffer_3072; by apply substring_0_all|].
  split.
  - destruct (relayed_action_runs (Act_log_msg (buffer_3072 formatted)) w Hnone)
      as (w' & E & T & F).
    exists w'. by rewrite run_two.
  - destruct (relayed_action_runs (Act_log_err (buffer_3072 formatted)) w Hnone)
      as (w' & E & T & F).
    exists w'. by rewrite run_two.
Qed.

(** X7.  A callback handed to [Defer] is queued as a frame action; when the
    host runs it, the callback is invoked once and then released, whether
    or not the extension is torn down, and nothing but the trace has changed
    afterwards. *)
Theorem deferred_callback_is_invoked_then_released (cb : nat) (w : World) :
  frame_actions w = [] →
  ∃ w',
    exec (run [RelayDefer cb; HostFrameAction]) w = Some w' ∧
    events_since w w' =
      [EvAddFrameAction (Act_execute_cb cb); EvInvoke cb; EvRelease cb] ∧
    set_trace (trace w) w' = w.
Proof.
  intros Hnone.
  destruct (relayed_action_runs (Act_execute_cb cb) w Hnone) as (w' & E & T & F).
  exists w'. by rewrite run_two.
Qed.

End Engine.

(** ** Concrete runs *)


(** The deadline 250 ms is in range; the callback arms the timer with it. *)
Lemma shared_timer_follows_the_deadline_witness :
  (-1 ≤ 250 ≤ LONG_MAX)%Z ∧
  ∃ w', CurlTimeoutCallback 250 loaded = Some (0%Z, w') ∧
        g_Timeout w' = Some (250%Z, 0%Z).
Proof.
  assert ((-1 ≤ 250 ≤ LONG_MAX)%Z) as H by (unfold LONG_MAX; lia).
  split; [exact H|].
  destruct (shared_timer_follows_the_deadline even_InitCurl same_address
              same_address 250 loaded H) as (w' & E & _ & T).
  exists w'. split; [exact E|]. exact (proj1 T).
Defined.

(** C10 as stated fails.  Context 2 is submitted and a tick sends the wake;
    context 4 is submitted before the reactor handles that wake.  The drain
    the wake starts admits 2 and 4: context 4 is admitted although no tick
    ran after its submission. *)
Lemma submitted_context_admitted_before_next_tick :
  (w1 ← exec (run even_InitCurl same_address same_address
                [HostSubmit 2; HostTick; HostSubmit 4]) loaded;
   w2 ← exec (step even_InitCurl same_address same_address ReactorWake) w1;
   Some (g_AsyncPerformRequests w1, items (g_RequestQueue w1),
         admitted_in (events_since w1 w2), easy_handles (g_Curl w2)))
  = Some (true, [2; 4], [2; 4], [2; 4]).
Proof. vm_compute. reflexivity. Qed.


(** With no wake outstanding, context 4 is submitted; the reactor then
    handles wake and timer events and context 6 is submitted, but no tick
    runs: nothing is admitted and both contexts are still pending. *)
Lemma admission_needs_a_wake_from_a_tick_witness :
  ∃ w1 w',
    g_AsyncPerformRequests loaded = false ∧
    AddRequestToQueue 4 loaded = Some (tt, w1) ∧
    (HostTick ∉ [ReactorWake; ReactorTimer; HostSubmit 6; ReactorWake]) ∧
    exec (run even_InitCurl same_address same_address
            [ReactorWake; ReactorTimer; HostSubmit 6; ReactorWake]) w1 = Some w' ∧
    items (g_RequestQueue w') = [4; 6] ∧
    admitted_in (events_since loaded w') = [].
Proof.
  assert (HostTick ∉ [ReactorWake; ReactorTimer; HostSubmit 6; ReactorWake])
    as Hl.
  { intros H. repeat (apply elem_of_cons in H as [H|H]; [discriminate|]).
    inversion H. }
  eexists _, _.
  split; [reflexivity|]. split; [reflexivity|]. split; [exact Hl|].
  split; [vm_compute; reflexivity|]. split; [reflexivity|].
  eapply (proj2 (proj2 (proj2 (admission_needs_a_wake_from_a_tick
                                 even_InitCurl same_address same_address)))
            4 _ loaded); [reflexivity|reflexivity|exact Hl|].
  vm_compute. reflexivity.
Defined.


(** A tick with context 2 pending sends the wake and leaves the multi
    handle, the timer, the Socket Watch Contexts and libcurl's pending work
    as they were. *)
Lemma only_the_reactor_changes_its_state_witness :
  ∃ w',
    reactor_action HostTick = false ∧
    exec (step even_InitCurl same_address same_address HostTick)
      (with_pending [2] transfer_2_finishes) = Some w' ∧
    g_AsyncPerformRequests w' = true ∧
    g_Curl w' = g_Curl (with_pending [2] transfer_2_finishes) ∧
    g_Timeout w' = g_Timeout (with_pending [2] transfer_2_finishes) ∧
    watch_contexts w' = watch_contexts (with_pending [2] transfer_2_finishes) ∧
    callback_tape w' = callback_tape (with_pending [2] transfer_2_finishes) ∧
    completion_tape w' = completion_tape (with_pending [2] transfer_2_finishes).
Proof.
  eexists. split; [reflexivity|].
  split; [vm_compute; reflexivity|].
  split; [reflexivity|].
  apply (only_the_reactor_changes_its_state even_InitCurl same_address
           same_address HostTick (with_pending [2] transfer_2_finishes));
    [reflexivity|vm_compute; reflexivity].
Defined.

(** The wake handler admits context 2, libcurl asks for the timer, and the
    transfer is reported as finished at once: context 2 is moved to the
    completed queue, but its completion is not run, and the host's flag and
    frame actions are as they were. *)
Lemma reactor_never_calls_into_the_host_witness :
  ∃ w',
    reactor_action ReactorWake = true ∧
    exec (step even_InitCurl same_address same_address ReactorWake)
      (set_g_AsyncPerformRequests true (with_pending [2] transfer_2_finishes))
      = Some w' ∧
    admitted_in (trace w') = [2] ∧
    unloaded w' = false ∧
    frame_actions w' = [] ∧
    Forall reactor_event
      (events_since
         (set_g_AsyncPerformRequests true (with_pending [2] transfer_2_finishes))
         w') ∧
    completed_in
      (events_since
         (set_g_AsyncPerformRequests true (with_pending [2] transfer_2_finishes))
         w') = [].
Proof.
  eexists. split; [reflexivity|].
  split; [vm_compute; reflexivity|].
  split; [vm_compute; reflexivity|].
  apply (reactor_never_calls_into_the_host even_InitCurl same_address
           same_address ReactorWake
           (set_g_AsyncPerformRequests true
              (with_pending [2] transfer_2_finishes)));
    [reflexivity|vm_compute; reflexivity].
Defined.

(** Socket 5 is watched by the context at address 7 and becomes readable:
    libcurl is told so for socket 5. *)
Lemma socket_activity_passes_the_readiness_on_witness :
  watch_contexts
    (set_watch_contexts {[ 7 := {| socket := 5; poll_events := Some UV_READABLE |} ]}
       loaded) !! 7
  = Some {| socket := 5; poll_events := Some UV_READABLE |} ∧
  ∃ flags w1 w2,
    (Z.land flags CURL_CSELECT_IN ≠ 0 ↔ Z.land UV_READABLE UV_READABLE ≠ 0)%Z ∧
    (Z.land flags CURL_CSELECT_OUT ≠ 0 ↔ Z.land UV_READABLE UV_WRITABLE ≠ 0)%Z ∧
    (0 ≤ flags ≤ 3)%Z ∧
    curl_multi_socket_action 5 flags
      (set_watch_contexts
         {[ 7 := {| socket := 5; poll_events := Some UV_READABLE |} ]} loaded)
    = Some (tt, w1) ∧
    CheckCompletedRequests same_address w1 = Some (tt, w2) ∧
    CurlSocketActivity same_address 7 0 UV_READABLE
      (set_watch_contexts
         {[ 7 := {| socket := 5; poll_events := Some UV_READABLE |} ]} loaded)
    = Some (tt, w2) ∧
    hd_error
      (events_since
         (set_watch_contexts
            {[ 7 := {| socket := 5; poll_events := Some UV_READABLE |} ]} loaded)
         w2)
    = Some (EvMultiSocketAction 5 flags) ∧
    messages (g_Curl w2) = [].
Proof.
  split; [vm_compute; reflexivity|].
  apply (socket_activity_passes_the_readiness_on same_address 7 0 UV_READABLE
           {| socket := 5; poll_events := Some UV_READABLE |}).
  vm_compute; reflexivity.
Defined.

(** A short line relayed before the unload is logged in full and freed. *)
Lemma relayed_log_line_is_truncated_and_freed_witness :
  frame_actions loaded = [] ∧
  ∃ text,
    text = buffer_3072 "transfer failed" ∧
    String.length text = Nat.min 3071 (String.length "transfer failed") ∧
    (String.length "transfer failed" ≤ 3071 → text = "transfer failed"%string) ∧
    (∃ w',
       exec (run even_InitCurl same_address same_address
               [RelayLogMessage "transfer failed"; HostFrameAction]) loaded
       = Some w' ∧
       events_since loaded w' =
         EvAddFrameAction (Act_log_msg text) ::
         (if unloaded loaded then [] else [EvLogMessage text]) ++ [EvFree text] ∧
       set_trace (trace loaded) w' = loaded) ∧
    (∃ w',
       exec (run even_InitCurl same_address same_address
               [RelayLogError "transfer failed"; HostFrameAction]) loaded
       = Some w' ∧
       events_since loaded w' =
         EvAddFrameAction (Act_log_err text) ::
         (if unloaded loaded then [] else [EvLogError text]) ++ [EvFree text] ∧
       set_trace (trace loaded) w' = loaded).
Proof.
  split; [reflexivity|].
  apply (relayed_log_line_is_truncated_and_freed even_InitCurl same_address
           same_address "transfer failed" loaded).
  reflexivity.
Defined.

(** Callback 9 is deferred and run by the host: invoked once, then
    released. *)
Lemma deferred_callback_is_invoked_then_released_witness :
  frame_actions loaded = [] ∧
  ∃ w',
    exec (run even_InitCurl same_address same_address
            [RelayDefer 9; HostFrameAction]) loaded = Some w' ∧
    events_since loaded w' =
      [EvAddFrameAction (Act_execute_cb 9); EvInvoke 9; EvRelease 9] ∧
    set_trace (trace loaded) w' = loaded.
Proof.
  split; [reflexivity|].
  apply (deferred_callback_is_invoked_then_released even_InitCurl same_address
           same_address 9 loaded).
  reflexivity.
Defined.
